(** * Container Image Distributor: destination derivation

    A shallow embedding of the string-rewriting core of [main.go]
    (the derivation of the destination image reference from a source
    image, a destination selector and the configuration) together with
    the properties stated for it.

    Go strings are byte sequences: they are modelled by [string]
    (a list of 8-bit [ascii] characters).  A Go [map[string]string] is a
    [gmap string string]; the order in which [range] visits its entries is
    not fixed by the language, so every function that ranges over a map
    takes the iteration order as an explicit [Schedule]. *)

From Stdlib Require Import ZArith Ascii String List Lia.
From stdpp Require Import gmap strings list fin_maps.

Local Open Scope Z_scope.

(** ** The functions of Go's [strings] package used by the program *)

Module strings.

(** [s[n:]] for [0 <= n <= len(s)]. *)
Fixpoint slice_from (n : nat) (s : string) : string :=
  match n, s with
  | O, _ => s
  | S n', String _ s' => slice_from n' s'
  | S _, EmptyString => EmptyString
  end.

(** [s[:n]] for [0 <= n <= len(s)]. *)
Fixpoint slice_to (n : nat) (s : string) : string :=
  match n, s with
  | O, _ => EmptyString
  | S n', String c s' => String c (slice_to n' s')
  | S _, EmptyString => EmptyString
  end.

(** [strings.HasPrefix(s, prefix)]. *)
Definition HasPrefix (s prefix : string) : bool := String.prefix prefix s.

(** [strings.CutPrefix(s, prefix)]: [(s[len(prefix):], true)] when [s]
    starts with [prefix], [(s, false)] otherwise. *)
Definition CutPrefix (s prefix : string) : string * bool :=
  if HasPrefix s prefix
  then (slice_from (String.length prefix) s, true)
  else (s, false).

(** [strings.Index(s, substr)]: the index of the first instance of
    [substr] in [s], or [-1]. *)
Fixpoint Index (s substr : string) : Z :=
  if String.prefix substr s then 0
  else match s with
       | EmptyString => -1
       | String _ s' =>
           let i := Index s' substr in
           if i =? -1 then -1 else i + 1
       end.

(** [strings.LastIndex(s, substr)]: the index of the last instance of
    [substr] in [s], or [-1]. *)
Fixpoint LastIndex (s substr : string) : Z :=
  match s with
  | EmptyString => if String.prefix substr s then 0 else -1
  | String _ s' =>
      let i := LastIndex s' substr in
      if i =? -1
      then (if String.prefix substr s then 0 else -1)
      else i + 1
  end.

(** [strings.Contains(s, substr)] is [Index(s, substr) >= 0]. *)
Definition Contains (s substr : string) : bool := 0 <=? Index s substr.

(** [strings.Replace(s, old, new, 1)], the only count the program
    passes: the first instance of [old] is replaced by [new]; an empty
    [old] matches at the beginning of [s]. *)
Definition Replace1 (s old new : string) : string :=
  let j := Index s old in
  if j =? -1 then s
  else slice_to (Z.to_nat j) s
       +:+ new
       +:+ slice_from (Z.to_nat j + String.length old) s.

(** [strings.Split(s, sep)] for a one-byte separator [sep]. *)
Fixpoint Split (s : string) (sep : ascii) : list string :=
  match s with
  | EmptyString => [EmptyString]
  | String c s' =>
      if Ascii.eqb c sep then EmptyString :: Split s' sep
      else match Split s' sep with
           | part :: parts => String c part :: parts
           | [] => [String c EmptyString]
           end
  end.

End strings.

Import strings.

(** ** Data model ([main.go], "Structs" and "Errors") *)

(** [type Repository struct].  Fields omitted from the JSON file are Go
    zero values: the empty string, the [nil] slice (here [[]]) and the
    [nil] map (here [∅]; ranging over it visits nothing). *)
Record Repository := {
  Name : string;
  AdditionalNames : list string;
  Registry : string;
  Suffix : string;
  DestinationMapping : gmap string string
}.

(** [type Config struct]; its [DestinationMapping] field is named
    [GlobalDestinationMapping] here, field names being global. *)
Record Config := {
  Repositories : list Repository;
  GlobalDestinationMapping : gmap string string
}.

(** The two sentinel error types. *)
Inductive error :=
| RepositoryNotFoundForDestinationError (destination : string)
| RepositoryNotFoundForSourceError (source : string).

(** [func (r Repository) GetRegistryPath() string] *)
Definition GetRegistryPath (r : Repository) : string :=
  if (String.length (Suffix r) =? 0)%nat then Registry r
  else Registry r +:+ "/" +:+ Suffix r.

(** ** Iteration order of maps

    [for source, dest := range mapping] visits every entry of the map
    once, in an order the Go runtime chooses.  A [Schedule] gives the
    sequence of entries a [range] statement visits for a map; it is
    [fair] when that sequence is an enumeration of the map's entries. *)
Definition Schedule := gmap string string → list (string * string).

Definition fair (σ : Schedule) : Prop :=
  ∀ m : gmap string string, σ m ≡ₚ map_to_list m.

(** Two schedules: the enumeration of the entries and its reverse. *)
Definition ascending : Schedule := map_to_list.

(** ** Image destination logic *)

(** The body of the [range] loop of [ApplyDestinationMapping], run over
    the sequence of entries visited. *)
Fixpoint ApplyDestinationMapping_range
    (entries : list (string * string)) (path : string) : string :=
  match entries with
  | [] => path
  | (source, dest) :: rest =>
      if Contains path source then Replace1 path source dest
      else ApplyDestinationMapping_range rest path
  end.

(** [func ApplyDestinationMapping(path string, mapping map[string]string) string] *)
Definition ApplyDestinationMapping
    (σ : Schedule) (path : string) (mapping : gmap string string) : string :=
  ApplyDestinationMapping_range (σ mapping) path.

(** The inner loop of [GetDestination] over [repo.AdditionalNames]:
    does some additional name equal [destination]? *)
Fixpoint additional_matches (destination : string) (names : list string) : bool :=
  match names with
  | [] => false
  | additional :: rest =>
      if String.eqb additional destination then true
      else additional_matches destination rest
  end.

(** The outer loop of [GetDestination] over [config.Repositories]. *)
Fixpoint GetDestination_range
    (σ : Schedule) (destination imagePathWithoutRegistry : string)
    (repos : list Repository) : string * option error :=
  match repos with
  | [] => (EmptyString, Some (RepositoryNotFoundForDestinationError destination))
  | repo :: rest =>
      if String.eqb (Name repo) destination then
        (ApplyDestinationMapping σ
           (GetRegistryPath repo +:+ "/" +:+ imagePathWithoutRegistry)
           (DestinationMapping repo), None)
      else if additional_matches destination (AdditionalNames repo) then
        (ApplyDestinationMapping σ
           (GetRegistryPath repo +:+ "/" +:+ imagePathWithoutRegistry)
           (DestinationMapping repo), None)
      else GetDestination_range σ destination imagePathWithoutRegistry rest
  end.

(** [func GetDestination(destination, imagePathWithoutRegistry string, config Config) (string, error)] *)
Definition GetDestination
    (σ : Schedule) (destination imagePathWithoutRegistry : string)
    (config : Config) : string * option error :=
  if HasPrefix destination "!" then (Replace1 destination "!" EmptyString, None)
  else GetDestination_range σ destination imagePathWithoutRegistry
         (Repositories config).

(** The loop of [GenerateDestinationPathFromSourcePathAndConfig] over
    [config.Repositories]. *)
Fixpoint GenerateDestinationPath_range
    (σ : Schedule) (image destination : string) (config : Config)
    (repos : list Repository) : string * option error :=
  match repos with
  | [] => (EmptyString, Some (RepositoryNotFoundForSourceError image))
  | repo :: rest =>
      let '(imageWithoutRegistry, found) :=
        CutPrefix image (GetRegistryPath repo +:+ "/") in
      if found then GetDestination σ destination imageWithoutRegistry config
      else GenerateDestinationPath_range σ image destination config rest
  end.

(** [func GenerateDestinationPathFromSourcePathAndConfig(image, destination string, config Config) (string, error)] *)
Definition GenerateDestinationPathFromSourcePathAndConfig
    (σ : Schedule) (image destination : string) (config : Config)
    : string * option error :=
  let imageParts := Split image "/" in
  if (length imageParts <? 2)%nat then GetDestination σ destination image config
  else GenerateDestinationPath_range σ image destination config
         (Repositories config).

(** [func OverrideTag(tag string, image string) string] *)
Definition OverrideTag (tag image : string) : string :=
  let i := LastIndex image ":" in
  if negb (i =? -1) then
    if Index (slice_from (Z.to_nat i) image) "/" =? -1
    then slice_to (Z.to_nat i) image +:+ ":" +:+ tag
    else image +:+ ":" +:+ tag
  else image +:+ ":" +:+ tag.

(** The part of [main] that computes [destinationImage] (between the
    comments "Generate destinationImage" and "Override tag"): either
    [log.Fatal(err)] ends the process, or the destination image is
    resolved.  [σr] schedules the [range] over the chosen repository's
    mapping, [σg] the one over the global mapping. *)
Inductive outcome :=
| Fatal (err : error)
| Resolved (destinationImage : string).

Definition destinationImage
    (σr σg : Schedule) (sourceImage destination overrideTag : string)
    (config : Config) : outcome :=
  let '(destinationImage, err) :=
    GenerateDestinationPathFromSourcePathAndConfig σr sourceImage destination config in
  match err with
  | Some e => Fatal e
  | None =>
      let destinationImage :=
        ApplyDestinationMapping σg destinationImage (GlobalDestinationMapping config) in
      let destinationImage :=
        if negb (String.eqb overrideTag EmptyString)
        then OverrideTag overrideTag destinationImage
        else destinationImage in
      Resolved destinationImage
  end.

(** The configuration and the run of the README. *)
Definition readme_config : Config := {|
  Repositories := [
    {| Name := "source"; AdditionalNames := []; Registry := "registryA.com";
       Suffix := "team-a"; DestinationMapping := ∅ |};
    {| Name := "target"; AdditionalNames := ["teamB"]; Registry := "registryB.com";
       Suffix := "team-b";
       DestinationMapping := {[ "application-x" := "external/team-a/application-x" ]} |} ];
  GlobalDestinationMapping := ∅
|}.

(** ** Specification vocabulary for strings *)

(** [sub] occurs in [s] as a literal substring. *)
Definition occurs (sub s : string) : Prop :=
  ∃ pre post, s = pre +:+ sub +:+ post.

(** [pre] and [post] surround the first (leftmost) instance of [sub] in [s]. *)
Definition first_occurrence (sub s pre post : string) : Prop :=
  s = pre +:+ sub +:+ post ∧
  ∀ pre' post', s = pre' +:+ sub +:+ post' →
    (String.length pre ≤ String.length pre')%nat.

(** What the loop does on a sequence of entries: it runs past the
    entries whose key does not occur in [path] and stops at the first
    whose key does, rewriting with that entry. *)
Inductive range_result (entries : list (string * string)) (path : string)
  : string → Prop :=
| range_exhausted :
    (∀ k v, (k, v) ∈ entries → ¬ occurs k path) →
    range_result entries path path
| range_stopped visited k v rest :
    entries = visited ++ (k, v) :: rest →
    (∀ k' v', (k', v') ∈ visited → ¬ occurs k' path) →
    occurs k path →
    range_result entries path (Replace1 path k v).

(** At most one key of [m] occurs in [path]. *)
Definition unambiguous (m : gmap string string) (path : string) : Prop :=
  ∀ k1 k2, is_Some (m !! k1) → is_Some (m !! k2) →
    occurs k1 path → occurs k2 path → k1 = k2.

(** ** Specification vocabulary for repositories *)

(** The registry path of [r] followed by ["/"] is a prefix of [image],
    and [rest] is what follows it. *)
Definition strips_to (r : Repository) (image rest : string) : Prop :=
  image = GetRegistryPath r +:+ "/" +:+ rest.

Definition registry_prefix (r : Repository) (image : string) : Prop :=
  ∃ rest, strips_to r image rest.

(** The name of [r] or one of its additional names equals [destination]. *)
Definition selects (destination : string) (r : Repository) : Prop :=
  Name r = destination ∨ destination ∈ AdditionalNames r.

(** The registry path of a repository, as the specification words it:
    the registry, joined with ["/"] and the suffix when there is one. *)
Definition registry_path (r : Repository) (p : string) : Prop :=
  (Suffix r = EmptyString ∧ p = Registry r)
  ∨ (Suffix r ≠ EmptyString ∧ p = Registry r +:+ "/" +:+ Suffix r).

(** [rest] is the image path left once the source registry is stripped
    from [image]: the image itself when it has no ["/"], and otherwise
    what follows the prefix of the earliest repository of the
    configuration whose registry path is a prefix of the image. *)
Inductive stripped (config : Config) (image : string) : string → Prop :=
| stripped_bare :
    ¬ occurs "/" image → stripped config image image
| stripped_registry before repo after rest :
    Repositories config = before ++ repo :: after →
    Forall (λ r, ¬ registry_prefix r image) before →
    strips_to repo image rest →
    stripped config image rest.

(** The source step passes: the image has no ["/"], or the registry path
    of some repository is a prefix of it. *)
Definition source_found (config : Config) (image : string) : Prop :=
  ¬ occurs "/" image ∨ Exists (λ r, registry_prefix r image) (Repositories config).

(** The three ways [GetDestination] can end. *)
Inductive GetDestination_case
    (σ : Schedule) (destination img : string) (config : Config)
  : string * option error → Prop :=
| destination_literal :
    HasPrefix destination "!" = true →
    GetDestination_case σ destination img config (slice_from 1 destination, None)
| destination_missing :
    HasPrefix destination "!" = false →
    Forall (λ r, ¬ selects destination r) (Repositories config) →
    GetDestination_case σ destination img config
      (EmptyString, Some (RepositoryNotFoundForDestinationError destination))
| destination_selected before repo after :
    HasPrefix destination "!" = false →
    Repositories config = before ++ repo :: after →
    Forall (λ r, ¬ selects destination r) before →
    selects destination repo →
    GetDestination_case σ destination img config
      (ApplyDestinationMapping σ (GetRegistryPath repo +:+ "/" +:+ img)
         (DestinationMapping repo), None).

(** [result] is [path] after at most one substitution by [m]: [path]
    itself when no key of [m] occurs in it, and otherwise [path] with the
    first instance of one key of [m] replaced by the value of that key. *)
Definition substituted (m : gmap string string) (path result : string) : Prop :=
  ((∀ k, is_Some (m !! k) → ¬ occurs k path) ∧ result = path)
  ∨ (∃ k v pre post,
       m !! k = Some v ∧ first_occurrence k path pre post
       ∧ result = pre +:+ v +:+ post).


(** ** Example configurations *)

(** A configuration in which the registry paths of both repositories are
    prefixes of ["registry.io/team/app:1"]. *)
Definition nested_config : Config := {|
  Repositories := [
    {| Name := "plain"; AdditionalNames := []; Registry := "registry.io";
       Suffix := EmptyString; DestinationMapping := ∅ |};
    {| Name := "team"; AdditionalNames := ["t"]; Registry := "registry.io";
       Suffix := "team"; DestinationMapping := ∅ |} ];
  GlobalDestinationMapping := ∅
|}.

(** A configuration whose global mapping rewrites ["123"], the tag of
    the source image of the README. *)
Definition retag_config : Config := {|
  Repositories := Repositories readme_config;
  GlobalDestinationMapping := {[ "123" := "stable" ]}
|}.



(** ** The configuration as shared memory

    [Config] is passed by value, but the slice and the maps it holds
    refer to memory shared with the caller.  [Stateful] runs the same
    functions as computations over that memory: a map argument is a
    reference to one of the maps of the configuration, and every access
    of the source is a load. *)
Module Stateful.

(** A computation that may read and write the configuration memory. *)
Definition M (A : Type) : Type := Config → A * Config.

#[local] Instance M_ret : MRet M := λ A a config, (a, config).
#[local] Instance M_bind : MBind M :=
  λ A B f x config, let '(a, config') := x config in f a config'.

(** The maps of the configuration: the global one and the one of the
    [i]-th repository. *)
Inductive mapping_ref :=
| GlobalMapping
| RepositoryMapping (i : nat).

Definition deref (ref : mapping_ref) (config : Config) : gmap string string :=
  match ref with
  | GlobalMapping => GlobalDestinationMapping config
  | RepositoryMapping i =>
      from_option DestinationMapping ∅ (Repositories config !! i)
  end.

(** Loads: [config.Repositories] and the entries of a map. *)
Definition load_repositories : M (list Repository) :=
  λ config, (Repositories config, config).

Definition load_mapping (ref : mapping_ref) : M (gmap string string) :=
  λ config, (deref ref config, config).

(** The store [mapping[source] = dest].  No function of the program
    performs it; it is what a mutation of the configuration would be. *)
Definition store_mapping (ref : mapping_ref) (source dest : string) : M unit :=
  λ config,
    (tt,
     match ref with
     | GlobalMapping =>
         {| Repositories := Repositories config;
            GlobalDestinationMapping :=
              <[source := dest]> (GlobalDestinationMapping config) |}
     | RepositoryMapping i =>
         {| Repositories :=
              alter (λ r, {| Name := Name r; AdditionalNames := AdditionalNames r;
                             Registry := Registry r; Suffix := Suffix r;
                             DestinationMapping :=
                               <[source := dest]> (DestinationMapping r) |})
                    i (Repositories config);
            GlobalDestinationMapping := GlobalDestinationMapping config |}
     end).

Definition ApplyDestinationMapping
    (σ : Schedule) (path : string) (mapping : mapping_ref) : M string :=
  entries ← load_mapping mapping;
  mret (ApplyDestinationMapping_range (σ entries) path).

Fixpoint GetDestination_range
    (σ : Schedule) (destination imagePathWithoutRegistry : string)
    (i : nat) (repos : list Repository) : M (string * option error) :=
  match repos with
  | [] => mret (EmptyString, Some (RepositoryNotFoundForDestinationError destination))
  | repo :: rest =>
      if String.eqb (Name repo) destination then
        path ← ApplyDestinationMapping σ
                 (GetRegistryPath repo +:+ "/" +:+ imagePathWithoutRegistry)
                 (RepositoryMapping i);
        mret (path, None)
      else if additional_matches destination (AdditionalNames repo) then
        path ← ApplyDestinationMapping σ
                 (GetRegistryPath repo +:+ "/" +:+ imagePathWithoutRegistry)
                 (RepositoryMapping i);
        mret (path, None)
      else GetDestination_range σ destination imagePathWithoutRegistry (S i) rest
  end.

Definition GetDestination
    (σ : Schedule) (destination imagePathWithoutRegistry : string)
    : M (string * option error) :=
  if HasPrefix destination "!" then mret (Replace1 destination "!" EmptyString, None)
  else
    repos ← load_repositories;
    GetDestination_range σ destination imagePathWithoutRegistry 0 repos.

Fixpoint GenerateDestinationPath_range
    (σ : Schedule) (image destination : string) (repos : list Repository)
    : M (string * option error) :=
  match repos with
  | [] => mret (EmptyString, Some (RepositoryNotFoundForSourceError image))
  | repo :: rest =>
      let '(imageWithoutRegistry, found) :=
        CutPrefix image (GetRegistryPath repo +:+ "/") in
      if found then GetDestination σ destination imageWithoutRegistry
      else GenerateDestinationPath_range σ image destination rest
  end.

Definition GenerateDestinationPathFromSourcePathAndConfig
    (σ : Schedule) (image destination : string) : M (string * option error) :=
  let imageParts := Split image "/" in
  if (length imageParts <? 2)%nat then GetDestination σ destination image
  else
    repos ← load_repositories;
    GenerateDestinationPath_range σ image destination repos.

Definition OverrideTag (tag image : string) : M string :=
  mret (OverrideTag tag image).

Definition destinationImage
    (σr σg : Schedule) (sourceImage destination overrideTag : string) : M outcome :=
  '(destinationImage, err) ←
    GenerateDestinationPathFromSourcePathAndConfig σr sourceImage destination;
  match err with
  | Some e => mret (Fatal e)
  | None =>
      destinationImage ← ApplyDestinationMapping σg destinationImage GlobalMapping;
      destinationImage ←
        (if negb (String.eqb overrideTag EmptyString)
         then OverrideTag overrideTag destinationImage
         else mret destinationImage);
      mret (Resolved destinationImage)
  end.

End Stateful.

(** ** The program: errors, [LoadConfig], the container tool and [main]

    [main] acts on its environment through a few calls: it asks for the
    path of the executable, reads a file, prints a prompt, reads a line,
    logs, and runs the container tool.  [Main] runs it on a [World] that
    holds the answers of the environment, and returns the sequence of
    calls made together with how the process ends. *)
Module Main.

(** [func (e RepositoryNotFoundForDestinationError) Error() string] and
    [func (e RepositoryNotFoundForSourceError) Error() string]. *)
Definition Error (e : error) : string :=
  match e with
  | RepositoryNotFoundForDestinationError destination =>
      "Could not find repository matching " +:+ destination +:+ " destination"
  | RepositoryNotFoundForSourceError source =>
      "Could not find repository matching " +:+ source +:+ " source image"
  end.

(** The calls made to the environment, in the order they are made. *)
Inductive event :=
| os_Executable
| os_ReadFile (name : string)
| fmt_Print (text : string)
| bufio_ReadString
| log_Println (text : string)
| exec_CombinedOutput (argv : list string).

(** The answers of the environment.  A Go [error] that comes from the
    environment is represented by its message, [None] being [nil]. *)
Record World := {
  executable : string * option string;
  file : string → string * option string;
  input : string;
  output : list string → string * option string;
  range_repository : Schedule;
  range_global : Schedule
}.

(** The values of the command-line flags after [flag.Parse()]. *)
Record Flags := {
  containerTool : string;
  sourceImage : string;
  destination : string;
  overrideTag : string;
  force : bool
}.

(** A run either goes on with a value or has ended in [log.Fatal], which
    prints its argument and exits with status 1. *)
Inductive result (A : Type) :=
| Done (a : A)
| Exit (msg : string).
Arguments Done {A} a.
Arguments Exit {A} msg.

Definition IO (A : Type) : Type := list event * result A.

#[local] Instance IO_ret : MRet IO := λ A a, ([], Done a).
#[local] Instance IO_bind : MBind IO :=
  λ A B f x,
    match x with
    | (calls, Done a) => let '(calls', r) := f a in (calls ++ calls', r)
    | (calls, Exit msg) => (calls, Exit msg)
    end.

Definition call (e : event) : IO unit := ([e], Done tt).
Definition log_Fatal {A : Type} (msg : string) : IO A := ([], Exit msg).

(** The commands run, in order. *)
Definition commands (calls : list event) : list (list string) :=
  omap (λ e, match e with exec_CombinedOutput argv => Some argv | _ => None end) calls.

(** [Config{}] *)
Definition zero_Config : Config :=
  {| Repositories := []; GlobalDestinationMapping := ∅ |}.

(** The text printed before the confirmation is read. *)
Definition prompt (destinationImage : string) : string :=
  "Generated destination image: " +:+ destinationImage
  +:+ String (ascii_of_nat 10)
        "Do you agree to tag & push it? [type y to confirm]: ".

Section program.

(** Library functions the program calls and that are not modelled:
    [filepath.Dir], [json.Unmarshal] into a [Config] (the value decoded
    so far and the error), [strings.TrimSpace] and [strings.ToLower]. *)
Variable Dir : string → string.
Variable Unmarshal : string → Config * option string.
Variables TrimSpace ToLower : string → string.

Variable w : World.

(** [func PullImage(containerTool string, image string) (string, error)] *)
Definition PullImage (containerTool image : string) : IO (string * option string) :=
  call (exec_CombinedOutput [containerTool; "pull"; image]);;
  mret (output w [containerTool; "pull"; image]).

(** [func TagImage(containerTool string, srcImage string, destImage string) (string, error)] *)
Definition TagImage (containerTool srcImage destImage : string)
    : IO (string * option string) :=
  call (exec_CombinedOutput [containerTool; "tag"; srcImage; destImage]);;
  mret (output w [containerTool; "tag"; srcImage; destImage]).

(** [func PushImage(containerTool string, image string) (string, error)] *)
Definition PushImage (containerTool image : string) : IO (string * option string) :=
  call (exec_CombinedOutput [containerTool; "push"; image]);;
  mret (output w [containerTool; "push"; image]).

(** [func LoadConfig() (Config, error)] *)
Definition LoadConfig : IO (Config * option string) :=
  call os_Executable;;
  let '(ex, err) := executable w in
  match err with
  | Some e => mret (zero_Config, Some e)
  | None =>
      let exPath := Dir ex in
      call (os_ReadFile (exPath +:+ "/config.json"));;
      let '(jsonBytes, err) := file w (exPath +:+ "/config.json") in
      match err with
      | Some e => mret (zero_Config, Some e)
      | None =>
          let '(config, err) := Unmarshal jsonBytes in
          match err with
          | Some e => mret (zero_Config, Some e)
          | None => mret (config, None)
          end
      end
  end.

(** [if err != nil { log.Fatal(err) }] *)
Definition fatal_on (err : option string) : IO unit :=
  match err with
  | Some e => log_Fatal e
  | None => mret tt
  end.

(** [func main()], from the parsed flags on. *)
Definition main (flags : Flags) : IO unit :=
  if String.eqb (sourceImage flags) EmptyString then log_Fatal "Must specify -image"
  else if String.eqb (containerTool flags) EmptyString
  then log_Fatal "Must specify -container-tool"
  else if String.eqb (destination flags) EmptyString
  then log_Fatal "Must specify -destination"
  else
    '(config, err) ← LoadConfig;
    fatal_on err;;
    match destinationImage (range_repository w) (range_global w)
            (sourceImage flags) (destination flags) (overrideTag flags) config with
    | Fatal err => log_Fatal (Error err)
    | Resolved destinationImage =>
        (if negb (force flags) then
           call (fmt_Print (prompt destinationImage));;
           call bufio_ReadString;;
           let text := input w in
           if negb (String.eqb (ToLower (TrimSpace text)) "y")
           then log_Fatal "Push aborted by user."
           else mret tt
         else mret tt);;
        call (log_Println "Pulling image...");;
        '(result, err) ← PullImage (containerTool flags) (sourceImage flags);
        call (log_Println result);;
        fatal_on err;;
        call (log_Println "Tagging image...");;
        '(result, err) ← TagImage (containerTool flags) (sourceImage flags) destinationImage;
        call (log_Println result);;
        fatal_on err;;
        call (log_Println "Pushing image...");;
        '(result, err) ← PushImage (containerTool flags) destinationImage;
        call (log_Println result);;
        fatal_on err
    end.

End program.

(** The same world with another line on standard input. *)
Definition with_input (text : string) (w : World) : World :=
  {| executable := executable w; file := file w; input := text;
     output := output w; range_repository := range_repository w;
     range_global := range_global w |}.

End Main.

(** ** A world for the example runs *)

(** [strings.ToLower] on a string of ASCII bytes: the letters [A] to [Z]
    become [a] to [z]. *)
Fixpoint ascii_ToLower (s : string) : string :=
  match s with
  | EmptyString => EmptyString
  | String c s' =>
      let n := nat_of_ascii c in
      String (if (65 <=? n)%nat && (n <=? 90)%nat then ascii_of_nat (n + 32) else c)
        (ascii_ToLower s')
  end.

(** The white space of ASCII: tab, line feed, vertical tab, form feed,
    carriage return and space. *)
Definition ascii_space (c : ascii) : bool :=
  let n := nat_of_ascii c in
  ((9 <=? n)%nat && (n <=? 13)%nat) || (n =? 32)%nat.

Fixpoint trim_left (s : string) : string :=
  match s with
  | EmptyString => EmptyString
  | String c s' => if ascii_space c then trim_left s' else s
  end.

Fixpoint trim_right (s : string) : string :=
  match s with
  | EmptyString => EmptyString
  | String c s' =>
      match trim_right s' with
      | EmptyString => if ascii_space c then EmptyString else String c EmptyString
      | t => String c t
      end
  end.

(** [strings.TrimSpace] on a string of ASCII bytes. *)
Definition ascii_TrimSpace (s : string) : string := trim_right (trim_left s).

(** The tool installed as [/opt/cid/cid], beside a [config.json] that
    decodes to the configuration of the README; every command succeeds
    and [answer] is the line typed at the prompt. *)
Definition cid_Dir : string → string := λ _, "/opt/cid".

Definition cid_Unmarshal : string → Config * option string :=
  λ _, (readme_config, None).

Definition cid_world (answer : string) : Main.World := {|
  Main.executable := ("/opt/cid/cid", None);
  Main.file := λ _, ("{}", None);
  Main.input := answer;
  Main.output := λ _, (EmptyString, None);
  Main.range_repository := ascending;
  Main.range_global := ascending
|}.

(** The line read when [answer] is typed and entered. *)
Definition typed (answer : string) : string :=
  answer +:+ String (ascii_of_nat 10) EmptyString.

(** The command line of the README, with or without [-force]. *)
Definition readme_flags (force : bool) : Main.Flags := {|
  Main.containerTool := "docker";
  Main.sourceImage := "registryA.com/team-a/application-x:123";
  Main.destination := "teamB";
  Main.overrideTag := "25-02-2025";
  Main.force := force
|}.

(** ** Runs of the functions on concrete inputs *)

Example Index_ex : Index "registry:5000/app:1" ":" = 8 /\ LastIndex "registry:5000/app:1" ":" = 17
  /\ Index "abc" EmptyString = 0 /\ LastIndex "abc" EmptyString = 3 /\ Index "abc" "d" = -1
  /\ Replace1 "a/b/a" "a" "xy" = "xy/b/a" /\ Replace1 "abc" EmptyString "Z" = "Zabc"
  /\ Split "a/b//c" "/" = ["a"; "b"; EmptyString; "c"] /\ Split EmptyString "/" = [EmptyString]
  /\ CutPrefix "reg.io/team/app" "reg.io/" = ("team/app", true).
Proof. repeat split; reflexivity. Qed.

Example readme_run :
  destinationImage ascending ascending
    "registryA.com/team-a/application-x:123" "teamB" "25-02-2025" readme_config
  = Resolved "registryB.com/team-b/external/team-a/application-x:25-02-2025".
Proof. vm_compute. reflexivity. Qed.

(** ** Facts about the [strings] functions *)

Section string_facts.
Implicit Types (s t sub pre post : string) (c : ascii).

Lemma append_cons c s t : String c s +:+ t = String c (s +:+ t).
Proof. reflexivity. Qed.

Lemma append_nil_l s : EmptyString +:+ s = s.
Proof. reflexivity. Qed.

Lemma append_nil_r s : s +:+ EmptyString = s.
Proof. induction s as [|c s IH]; [done|]. by rewrite append_cons, IH. Qed.

Lemma append_assoc s t u : (s +:+ t) +:+ u = s +:+ t +:+ u.
Proof. induction s as [|c s IH]; [done|]. by rewrite !append_cons, IH. Qed.

Lemma append_length s t :
  String.length (s +:+ t) = (String.length s + String.length t)%nat.
Proof. induction s as [|c s IH]; [done|]. rewrite append_cons. simpl. by rewrite IH. Qed.

Lemma slice_to_app pre t : slice_to (String.length pre) (pre +:+ t) = pre.
Proof. induction pre as [|c pre IH]; [by destruct t|]. rewrite append_cons. simpl. by rewrite IH. Qed.

Lemma slice_from_app pre t : slice_from (String.length pre) (pre +:+ t) = t.
Proof. induction pre as [|c pre IH]; [done|]. rewrite append_cons. simpl. by rewrite IH. Qed.

Lemma slice_from_add n k s : slice_from (n + k) s = slice_from k (slice_from n s).
Proof.
  revert s. induction n as [|n IH]; intros s; [done|].
  destruct s as [|c s]; simpl; [by destruct k|]. apply IH.
Qed.

Lemma prefix_iff sub s : String.prefix sub s = true ↔ ∃ post, s = sub +:+ post.
Proof.
  revert s. induction sub as [|a sub IH]; intros s.
  - destruct s; simpl; split; eauto.
  - destruct s as [|b s]; simpl.
    + split; [done|]. by intros [post Hpost].
    + destruct (ascii_dec a b) as [->|Hab].
      * rewrite IH. split; intros [post Hpost]; exists post.
        -- by rewrite append_cons, Hpost.
        -- rewrite append_cons in Hpost. by simplify_eq.
      * split; [done|]. intros [post Hpost]. rewrite append_cons in Hpost. by simplify_eq.
Qed.

Lemma prefix_split sub s :
  String.prefix sub s = true → s = sub +:+ slice_from (String.length sub) s.
Proof. intros [post ->]%prefix_iff. by rewrite slice_from_app. Qed.

Lemma occurs_cons sub c s : occurs sub s → occurs sub (String c s).
Proof. intros (pre & post & ->). by exists (String c pre), post. Qed.

Lemma occurs_prefix sub s : String.prefix sub s = true → occurs sub s.
Proof. intros [post ->]%prefix_iff. by exists EmptyString, post. Qed.

Lemma occurs_app_r sub t s : occurs sub s → occurs sub (t +:+ s).
Proof.
  intros (pre & post & ->). exists (t +:+ pre), post. by rewrite append_assoc.
Qed.

Lemma Index_nil sub : Index EmptyString sub = if String.prefix sub EmptyString then 0 else -1.
Proof. reflexivity. Qed.

Lemma Index_cons c s sub :
  Index (String c s) sub =
    if String.prefix sub (String c s) then 0
    else if Index s sub =? -1 then -1 else Index s sub + 1.
Proof. reflexivity. Qed.

(** [Index] never goes below [-1]. *)
Lemma Index_lower s sub : -1 ≤ Index s sub.
Proof.
  induction s as [|c s IH]; [rewrite Index_nil | rewrite Index_cons].
  - destruct (String.prefix sub EmptyString); lia.
  - destruct (String.prefix sub (String c s)); [lia|].
    destruct (Z.eqb_spec (Index s sub) (-1)); lia.
Qed.

Lemma Index_prefix s sub : String.prefix sub s = true → Index s sub = 0.
Proof.
  intros Hp. destruct s; [rewrite Index_nil | rewrite Index_cons]; by rewrite Hp.
Qed.

(** [Index] is at most the position of any instance of [sub]. *)
Lemma Index_least s sub pre post :
  s = pre +:+ sub +:+ post → 0 ≤ Index s sub ≤ Z.of_nat (String.length pre).
Proof.
  revert s. induction pre as [|c pre IH]; intros s ->.
  - rewrite append_nil_l, Index_prefix; [simpl; lia|]. apply prefix_iff; eauto.
  - rewrite append_cons, Index_cons.
    destruct (String.prefix sub _); [simpl; lia|].
    specialize (IH _ eq_refl).
    destruct (Z.eqb_spec (Index (pre +:+ sub +:+ post) sub) (-1)); simpl in *; lia.
Qed.

(** A non-negative [Index] is the position of an instance of [sub]. *)
Lemma Index_split s sub :
  0 ≤ Index s sub →
  s = slice_to (Z.to_nat (Index s sub)) s +:+ sub
        +:+ slice_from (Z.to_nat (Index s sub) + String.length sub) s
  ∧ String.length (slice_to (Z.to_nat (Index s sub)) s) = Z.to_nat (Index s sub).
Proof.
  induction s as [|c s IH]; [rewrite Index_nil | rewrite Index_cons].
  - destruct (String.prefix sub EmptyString) eqn:Hp; [|lia]. intros _.
    split; [|done]. by apply prefix_split in Hp.
  - destruct (String.prefix sub (String c s)) eqn:Hp.
    + intros _. split; [|done]. by apply prefix_split in Hp.
    + destruct (Z.eqb_spec (Index s sub) (-1)) as [|Hne]; [lia|]. intros _.
      pose proof (Index_lower s sub).
      destruct IH as [IH1 IH2]; [lia|].
      replace (Z.to_nat (Index s sub + 1)) with (S (Z.to_nat (Index s sub))) by lia.
      simpl. rewrite append_cons. split; [by rewrite <-IH1 | by rewrite IH2].
Qed.

Lemma Index_occurs s sub : 0 ≤ Index s sub ↔ occurs sub s.
Proof.
  split.
  - intros [Hs _]%Index_split. rewrite Hs. by eexists _, _.
  - intros (pre & post & Hs). eapply Index_least in Hs. lia.
Qed.

Lemma Index_absent s sub : Index s sub = -1 ↔ ¬ occurs sub s.
Proof. rewrite <-Index_occurs. pose proof (Index_lower s sub). lia. Qed.

Lemma Contains_occurs s sub : Contains s sub = true ↔ occurs sub s.
Proof. unfold Contains. rewrite Z.leb_le. apply Index_occurs. Qed.

Lemma Contains_absent s sub : Contains s sub = false ↔ ¬ occurs sub s.
Proof. rewrite <-Contains_occurs. by destruct (Contains s sub). Qed.

(** [Replace1] rewrites exactly the first instance. *)
Lemma Replace1_first s old new :
  occurs old s →
  ∃ pre post, first_occurrence old s pre post ∧ Replace1 s old new = pre +:+ new +:+ post.
Proof.
  intros Hocc%Index_occurs. unfold Replace1.
  destruct (Z.eqb_spec (Index s old) (-1)) as [|_]; [lia|].
  destruct (Index_split _ _ Hocc) as [Hs Hlen].
  eexists _, _. split; [|reflexivity]. split; [exact Hs|].
  intros pre' post' Hs'%Index_least. lia.
Qed.

Lemma Replace1_absent s old new : ¬ occurs old s → Replace1 s old new = s.
Proof. intros Hno%Index_absent. unfold Replace1. by rewrite Hno. Qed.

(** [HasPrefix] and [CutPrefix]. *)
Lemma HasPrefix_iff s sub : HasPrefix s sub = true ↔ ∃ rest, s = sub +:+ rest.
Proof. apply prefix_iff. Qed.

Lemma CutPrefix_found sub rest : CutPrefix (sub +:+ rest) sub = (rest, true).
Proof.
  unfold CutPrefix.
  assert (HasPrefix (sub +:+ rest) sub = true) as -> by (apply HasPrefix_iff; eauto).
  by rewrite slice_from_app.
Qed.

Lemma CutPrefix_missing s sub :
  (∀ rest, s ≠ sub +:+ rest) → CutPrefix s sub = (s, false).
Proof.
  intros Hno. unfold CutPrefix.
  destruct (HasPrefix s sub) eqn:Hp; [|done].
  apply HasPrefix_iff in Hp as [rest ->]. by destruct (Hno rest).
Qed.

End string_facts.

(** ** Facts about schedules and the mapping loop *)



Lemma fair_elem_of σ (m : gmap string string) k v :
  fair σ → (k, v) ∈ σ m ↔ m !! k = Some v.
Proof. intros Hσ. rewrite (Hσ m). apply elem_of_map_to_list. Qed.

Lemma ApplyDestinationMapping_range_result entries path :
  range_result entries path (ApplyDestinationMapping_range entries path).
Proof.
  induction entries as [|[source dest] entries IH]; simpl.
  - apply range_exhausted. by intros k v ?%elem_of_nil.
  - destruct (Contains path source) eqn:Hc.
    + apply Contains_occurs in Hc.
      apply (range_stopped _ _ [] source dest entries); [done| |done].
      by intros k v ?%elem_of_nil.
    + apply Contains_absent in Hc.
      destruct IH as [Hnone | visited k v rest -> Hvis Hocc].
      * apply range_exhausted. intros k v [?|?]%elem_of_cons; simplify_eq; eauto.
      * apply (range_stopped _ _ ((source, dest) :: visited) k v rest); [done| |done].
        intros k' v' [?|?]%elem_of_cons; simplify_eq; eauto.
Qed.

Lemma ApplyDestinationMapping_unambiguous σ path (m : gmap string string) k v :
  fair σ → unambiguous m path → m !! k = Some v → occurs k path →
  ApplyDestinationMapping σ path m = Replace1 path k v.
Proof.
  intros Hσ Hu Hk Hocc. unfold ApplyDestinationMapping.
  destruct (ApplyDestinationMapping_range_result (σ m) path)
    as [Hnone | visited k' v' rest Hσm _ Hocc'].
  - destruct (Hnone k v); [|done]. by apply fair_elem_of.
  - assert (m !! k' = Some v') as Hk'.
    { apply (fair_elem_of σ); [done|]. rewrite Hσm. set_solver. }
    assert (k' = k) as -> by (apply Hu; eauto). by simplify_eq.
Qed.

(** ** Properties of [ApplyDestinationMapping] *)

(** C3.  [ApplyDestinationMapping] performs at most one substitution.
    When no key of the map occurs in the path, the path is returned
    unchanged.  When some key occurs, exactly one entry [(k, v)] of the
    map is used: it is the first entry visited whose key occurs in the
    path, and the result is the path with the first (leftmost) instance
    of [k] replaced by [v], everything before and after it being kept. *)
Theorem ApplyDestinationMapping_single_substitution
    σ path (m : gmap string string) :
  fair σ →
  ((∀ k, is_Some (m !! k) → ¬ occurs k path) →
     ApplyDestinationMapping σ path m = path)
  ∧ ((∃ k, is_Some (m !! k) ∧ occurs k path) →
     ∃ k v pre post visited rest,
       m !! k = Some v
       ∧ first_occurrence k path pre post
       ∧ ApplyDestinationMapping σ path m = pre +:+ v +:+ post
       ∧ σ m = visited ++ (k, v) :: rest
       ∧ ∀ k' v', (k', v') ∈ visited → ¬ occurs k' path).
Proof.
  intros Hσ. unfold ApplyDestinationMapping.
  destruct (ApplyDestinationMapping_range_result (σ m) path)
    as [Hnone | visited k v rest Hσm Hvis Hocc].
  - split; [done|]. intros (k & [v Hk] & Hocc).
    destruct (Hnone k v); [|done]. by apply fair_elem_of.
  - assert (m !! k = Some v) as Hk.
    { apply (fair_elem_of σ); [done|]. rewrite Hσm. set_solver. }
    split.
    + intros Hnone. destruct (Hnone k); eauto.
    + intros _. destruct (Replace1_first path k v Hocc) as (pre & post & Hfirst & ->).
      by exists k, v, pre, post, visited, rest.
Qed.

Lemma ApplyDestinationMapping_single_substitution_witness :
  fair ascending
  ∧ ∃ k v pre post,
      ({[ "application-x" := "external/team-a/application-x" ]} : gmap string string) !! k = Some v
      ∧ first_occurrence k "registryB.com/team-b/application-x:123" pre post
      ∧ ApplyDestinationMapping ascending "registryB.com/team-b/application-x:123"
          {[ "application-x" := "external/team-a/application-x" ]} = pre +:+ v +:+ post.
Proof.
  split; [intros m; reflexivity|].
  destruct (ApplyDestinationMapping_single_substitution ascending
              "registryB.com/team-b/application-x:123"
              {[ "application-x" := "external/team-a/application-x" ]})
    as [_ H]; [intros m; reflexivity|].
  destruct H as (k & v & pre & post & visited & rest & Hk & Hfirst & Hres & _).
  - exists "application-x". split.
    + exists "external/team-a/application-x". apply lookup_singleton_eq.
    + exists "registryB.com/team-b/", ":123". reflexivity.
  - exists k, v, pre, post. split; [|split]; assumption.
Defined.

(** ** Facts about [LastIndex] and single characters *)

Section last_index_facts.
Implicit Types (s sub pre post : string) (c : ascii).

Lemma LastIndex_nil sub :
  LastIndex EmptyString sub = if String.prefix sub EmptyString then 0 else -1.
Proof. reflexivity. Qed.

Lemma LastIndex_cons c s sub :
  LastIndex (String c s) sub =
    if LastIndex s sub =? -1
    then (if String.prefix sub (String c s) then 0 else -1)
    else LastIndex s sub + 1.
Proof. reflexivity. Qed.

Lemma LastIndex_absent s sub : ¬ occurs sub s → LastIndex s sub = -1.
Proof.
  induction s as [|c s IH]; intros Hno; [rewrite LastIndex_nil | rewrite LastIndex_cons].
  - destruct (String.prefix sub EmptyString) eqn:Hp; [|done].
    by apply occurs_prefix in Hp.
  - rewrite IH by (intros ?; by apply Hno, occurs_cons). rewrite Z.eqb_refl.
    destruct (String.prefix sub (String c s)) eqn:Hp; [|done].
    by apply occurs_prefix in Hp.
Qed.

(** The position of a character after which it does not occur again. *)
Lemma LastIndex_last pre c post :
  ¬ occurs (String c EmptyString) post →
  LastIndex (pre +:+ String c post) (String c EmptyString) = Z.of_nat (String.length pre).
Proof.
  intros Hno. induction pre as [|a pre IH].
  - rewrite append_nil_l, LastIndex_cons, (LastIndex_absent _ _ Hno), Z.eqb_refl.
    assert (String.prefix (String c EmptyString) (String c post) = true) as ->; [|done].
    apply prefix_iff. by exists post.
  - rewrite append_cons, LastIndex_cons, IH.
    destruct (Z.eqb_spec (Z.of_nat (String.length pre)) (-1)); simpl String.length; lia.
Qed.

Lemma occurs_char_cons a b s :
  occurs (String a EmptyString) (String b s) → a = b ∨ occurs (String a EmptyString) s.
Proof.
  intros ([|b' pre] & post & Hs).
  - left. rewrite append_nil_l, append_cons in Hs. by simplify_eq.
  - right. rewrite append_cons in Hs. simplify_eq. by exists pre, post.
Qed.

End last_index_facts.

(** ** Properties of [OverrideTag] *)

(** C5.  When the image contains a [":"] and no ["/"] occurs after the
    last [":"], [OverrideTag] replaces everything after that last [":"]
    by the new tag.  Otherwise (the image contains no [":"], or a ["/"]
    occurs after the last [":"], which then belongs to a registry port)
    it appends [":"] and the new tag to the image. *)
Theorem OverrideTag_last_colon tag image :
  (∀ pre post,
     image = pre +:+ ":" +:+ post → ¬ occurs ":" post → ¬ occurs "/" post →
     OverrideTag tag image = pre +:+ ":" +:+ tag)
  ∧ (¬ occurs ":" image → OverrideTag tag image = image +:+ ":" +:+ tag)
  ∧ (∀ pre post,
       image = pre +:+ ":" +:+ post → ¬ occurs ":" post → occurs "/" post →
       OverrideTag tag image = image +:+ ":" +:+ tag).
Proof.
  assert (∀ pre post, ¬ occurs ":" post →
    LastIndex (pre +:+ ":" +:+ post) ":" = Z.of_nat (String.length pre)
    ∧ slice_from (String.length pre) (pre +:+ ":" +:+ post) = String ":" post
    ∧ slice_to (String.length pre) (pre +:+ ":" +:+ post) = pre) as Hlast.
  { intros pre post Hno. rewrite slice_from_app, slice_to_app.
    split; [|done]. by apply (LastIndex_last pre ":" post). }
  unfold OverrideTag. split; [|split].
  - intros pre post -> Hcolon Hslash.
    destruct (Hlast pre post Hcolon) as (-> & Hfrom & Hto).
    rewrite Nat2Z.id, Hfrom, Hto.
    destruct (Z.eqb_spec (Z.of_nat (String.length pre)) (-1)); [lia|]. cbn [negb].
    assert (Index (String ":" post) "/" = -1) as ->; [|done].
    apply Index_absent. by intros [?|?]%occurs_char_cons.
  - intros Hno. by rewrite (LastIndex_absent _ _ Hno).
  - intros pre post -> Hcolon Hslash.
    destruct (Hlast pre post Hcolon) as (-> & Hfrom & _).
    rewrite Nat2Z.id, Hfrom.
    destruct (Z.eqb_spec (Z.of_nat (String.length pre)) (-1)); [lia|]. cbn [negb].
    destruct (Z.eqb_spec (Index (String ":" post) "/") (-1)) as [Habs|]; [|done].
    apply Index_absent in Habs. destruct Habs. by apply occurs_cons.
Qed.

Lemma OverrideTag_last_colon_witness :
  OverrideTag "25-02-2025" "registryB.com/team-b/application-x:123"
    = "registryB.com/team-b/application-x:25-02-2025"
  ∧ OverrideTag "25-02-2025" "application-x" = "application-x:25-02-2025"
  ∧ OverrideTag "25-02-2025" "localhost:5000/application-x"
    = "localhost:5000/application-x:25-02-2025".
Proof.
  split; [|split].
  - apply (proj1 (OverrideTag_last_colon "25-02-2025"
                    "registryB.com/team-b/application-x:123")
             "registryB.com/team-b/application-x" "123");
      [reflexivity | |]; apply Contains_absent; reflexivity.
  - apply (proj1 (proj2 (OverrideTag_last_colon "25-02-2025" "application-x"))).
    apply Contains_absent; reflexivity.
  - apply (proj2 (proj2 (OverrideTag_last_colon "25-02-2025"
                           "localhost:5000/application-x"))
             "localhost" "5000/application-x");
      [reflexivity | |].
    + apply Contains_absent; reflexivity.
    + apply Contains_occurs; reflexivity.
Defined.

Section repository_facts.
Implicit Types (r repo : Repository) (config : Config).

Lemma GetRegistryPath_registry_path r : registry_path r (GetRegistryPath r).
Proof.
  unfold registry_path, GetRegistryPath.
  destruct (Suffix r) as [|c s]; simpl; [by left | by right].
Qed.

Lemma CutPrefix_strips r image rest :
  strips_to r image rest →
  CutPrefix image (GetRegistryPath r +:+ "/") = (rest, true).
Proof. intros ->. rewrite <-append_assoc. apply CutPrefix_found. Qed.

Lemma CutPrefix_no_prefix r image :
  ¬ registry_prefix r image →
  CutPrefix image (GetRegistryPath r +:+ "/") = (image, false).
Proof.
  intros Hno. apply CutPrefix_missing. intros rest ->.
  apply Hno. exists rest. unfold strips_to. by rewrite append_assoc.
Qed.

Lemma strips_to_occurs r image rest : strips_to r image rest → occurs "/" image.
Proof. intros ->. by exists (GetRegistryPath r), rest. Qed.

Lemma Split_nonempty s c : Split s c ≠ [].
Proof.
  induction s as [|a s IH]; simpl; [done|].
  destruct (Ascii.eqb a c); [done|]. by destruct (Split s c).
Qed.

(** [len(strings.Split(s, sep)) < 2] exactly when [sep] is not in [s]. *)
Lemma Split_length s c :
  (length (Split s c) <? 2)%nat = true ↔ ¬ occurs (String c EmptyString) s.
Proof.
  rewrite Nat.ltb_lt. induction s as [|a s IH]; simpl.
  - split; [|lia]. intros _ ([|b pre] & post & Hs); discriminate Hs.
  - destruct (Ascii.eqb_spec a c) as [->|Hne]; simpl.
    + pose proof (Split_nonempty s c). destruct (Split s c); [done|]. simpl.
      split; [lia|]. intros Hno. destruct Hno. by exists EmptyString, s.
    + pose proof (Split_nonempty s c). destruct (Split s c); [done|].
      simpl in *. rewrite IH. split; intros Hno Hocc; apply Hno.
      * by apply occurs_char_cons in Hocc as [->|?].
      * by apply occurs_cons.
Qed.

Lemma additional_matches_elem destination names :
  additional_matches destination names = true ↔ destination ∈ names.
Proof.
  induction names as [|n names IH]; simpl.
  - split; [done|]. by intros ?%elem_of_nil.
  - rewrite elem_of_cons. destruct (String.eqb_spec n destination) as [->|Hne].
    + split; auto.
    + rewrite IH. split; [auto|]. by intros [->|?].
Qed.

(** What the repository loop of [GetDestination] returns. *)
Lemma GetDestination_range_missing σ destination img repos :
  Forall (λ r, ¬ selects destination r) repos →
  GetDestination_range σ destination img repos
  = (EmptyString, Some (RepositoryNotFoundForDestinationError destination)).
Proof.
  induction 1 as [|r repos Hr _ IH]; simpl; [done|].
  destruct (String.eqb_spec (Name r) destination) as [Hn|_].
  { destruct Hr. by left. }
  destruct (additional_matches destination (AdditionalNames r)) eqn:Ha; [|done].
  apply additional_matches_elem in Ha. destruct Hr. by right.
Qed.

Lemma GetDestination_range_selected σ destination img before repo after :
  Forall (λ r, ¬ selects destination r) before →
  selects destination repo →
  GetDestination_range σ destination img (before ++ repo :: after)
  = (ApplyDestinationMapping σ (GetRegistryPath repo +:+ "/" +:+ img)
       (DestinationMapping repo), None).
Proof.
  intros Hbefore Hsel. induction Hbefore as [|r before Hr _ IH]; simpl.
  - destruct (String.eqb_spec (Name repo) destination) as [|Hn]; [done|].
    destruct (additional_matches destination (AdditionalNames repo)) eqn:Ha; [done|].
    destruct Hsel as [?|Hsel%additional_matches_elem]; congruence.
  - destruct (String.eqb_spec (Name r) destination) as [Hn|_].
    { destruct Hr. by left. }
    destruct (additional_matches destination (AdditionalNames r)) eqn:Ha; [|done].
    apply additional_matches_elem in Ha. destruct Hr. by right.
Qed.

(** The tests of the two repository loops decide [registry_prefix] and
    [selects]. *)
Lemma HasPrefix_registry_prefix r image :
  HasPrefix image (GetRegistryPath r +:+ "/") = true ↔ registry_prefix r image.
Proof.
  unfold registry_prefix, strips_to. rewrite HasPrefix_iff.
  by setoid_rewrite append_assoc.
Qed.

Lemma no_registry_prefix r image :
  HasPrefix image (GetRegistryPath r +:+ "/") = false → ¬ registry_prefix r image.
Proof. rewrite <-HasPrefix_registry_prefix. congruence. Qed.

Lemma selects_test destination r :
  String.eqb (Name r) destination
    || additional_matches destination (AdditionalNames r) = true
  ↔ selects destination r.
Proof.
  unfold selects. rewrite orb_true_iff, String.eqb_eq, additional_matches_elem. done.
Qed.

(** A list either has no element satisfying a decidable property or
    splits at the first one that does. *)
Lemma first_split {A} (P : A → Prop) (test : A → bool) (l : list A) :
  (∀ x, test x = true ↔ P x) →
  Forall (λ x, ¬ P x) l
  ∨ ∃ before x after, l = before ++ x :: after ∧ Forall (λ x, ¬ P x) before ∧ P x.
Proof.
  intros Htest. induction l as [|x l IH]; [by left|].
  destruct (test x) eqn:Hx.
  - apply Htest in Hx. right. by exists [], x, l.
  - assert (¬ P x) by (rewrite <-Htest; congruence).
    destruct IH as [Hall | (before & y & after & -> & Hb & Hy)].
    + left. by constructor.
    + right. exists (x :: before), y, after. split; [done|]. split; [by constructor|done].
Qed.

(** A selector starting with ["!"] is returned without that ["!"]. *)
Lemma GetDestination_literal σ destination img config :
  HasPrefix destination "!" = true →
  GetDestination σ destination img config = (slice_from 1 destination, None).
Proof.
  intros Hp. unfold GetDestination. rewrite Hp. f_equal.
  apply HasPrefix_iff in Hp as [rest ->].
  unfold Replace1. rewrite Index_prefix by (apply prefix_iff; eauto). done.
Qed.

(** What the repository loop of the path generation returns. *)
Lemma GenerateDestinationPath_range_missing σ image destination config repos :
  Forall (λ r, ¬ registry_prefix r image) repos →
  GenerateDestinationPath_range σ image destination config repos
  = (EmptyString, Some (RepositoryNotFoundForSourceError image)).
Proof.
  induction 1 as [|r repos Hr _ IH]; simpl; [done|].
  by rewrite (CutPrefix_no_prefix _ _ Hr).
Qed.

Lemma GenerateDestinationPath_range_stripped
    σ image destination config before repo after rest :
  Forall (λ r, ¬ registry_prefix r image) before →
  strips_to repo image rest →
  GenerateDestinationPath_range σ image destination config (before ++ repo :: after)
  = GetDestination σ destination rest config.
Proof.
  intros Hbefore Hrepo. induction Hbefore as [|r before Hr _ IH]; simpl.
  - by rewrite (CutPrefix_strips _ _ _ Hrepo).
  - by rewrite (CutPrefix_no_prefix _ _ Hr).
Qed.

Lemma GenerateDestinationPath_bare σ image destination config :
  ¬ occurs "/" image →
  GenerateDestinationPathFromSourcePathAndConfig σ image destination config
  = GetDestination σ destination image config.
Proof.
  intros Hno%Split_length. unfold GenerateDestinationPathFromSourcePathAndConfig.
  by rewrite Hno.
Qed.

Lemma GenerateDestinationPath_slash σ image destination config :
  occurs "/" image →
  GenerateDestinationPathFromSourcePathAndConfig σ image destination config
  = GenerateDestinationPath_range σ image destination config (Repositories config).
Proof.
  intros Hocc. unfold GenerateDestinationPathFromSourcePathAndConfig.
  destruct (length (Split image "/") <? 2)%nat eqn:Hlen; [|done].
  by apply Split_length in Hlen.
Qed.

Lemma GenerateDestinationPath_stripped σ image destination config rest :
  stripped config image rest →
  GenerateDestinationPathFromSourcePathAndConfig σ image destination config
  = GetDestination σ destination rest config.
Proof.
  intros [Hbare | before repo after rest' Hrepos Hbefore Hrepo].
  - by apply GenerateDestinationPath_bare.
  - rewrite GenerateDestinationPath_slash by (by eapply strips_to_occurs).
    rewrite Hrepos. by apply GenerateDestinationPath_range_stripped.
Qed.

End repository_facts.

(** ** Case analyses shared by the properties below *)

Section derivation_cases.
Implicit Types (config : Config) (σ : Schedule).

Lemma Forall_not_Exists {A} (P : A → Prop) (l : list A) :
  Forall (λ x, ¬ P x) l → Exists P l → False.
Proof.
  rewrite Forall_forall, Exists_exists. intros Hall (x & Hx & HP). by apply (Hall x).
Qed.

Lemma Exists_split {A} (P : A → Prop) (before after : list A) x :
  P x → Exists P (before ++ x :: after).
Proof. intros HP. apply Exists_exists. exists x. split; [set_solver|done]. Qed.

Lemma GetDestination_cases σ destination img config :
  GetDestination_case σ destination img config
    (GetDestination σ destination img config).
Proof.
  destruct (HasPrefix destination "!") eqn:Hbang.
  - rewrite GetDestination_literal by done. by constructor.
  - unfold GetDestination. rewrite Hbang.
    destruct (first_split (selects destination) _ (Repositories config)
                (selects_test destination))
      as [Hnone | (before & repo & after & Hrepos & Hbefore & Hsel)].
    + rewrite GetDestination_range_missing by done. by constructor.
    + rewrite Hrepos, GetDestination_range_selected by done.
      by eapply destination_selected.
Qed.

(** The two ways the source step can end. *)
Lemma GenerateDestinationPath_cases σ image destination config :
  (∃ rest, stripped config image rest
     ∧ GenerateDestinationPathFromSourcePathAndConfig σ image destination config
       = GetDestination σ destination rest config)
  ∨ (occurs "/" image
     ∧ Forall (λ r, ¬ registry_prefix r image) (Repositories config)
     ∧ GenerateDestinationPathFromSourcePathAndConfig σ image destination config
       = (EmptyString, Some (RepositoryNotFoundForSourceError image))).
Proof.
  destruct (Contains image "/") eqn:Hslash;
    [apply Contains_occurs in Hslash | apply Contains_absent in Hslash].
  - destruct (first_split (λ r, registry_prefix r image) _ (Repositories config)
                (λ r, HasPrefix_registry_prefix r image))
      as [Hnone | (before & repo & after & Hrepos & Hbefore & [rest Hrepo])].
    + right. split; [done|]. split; [done|].
      rewrite GenerateDestinationPath_slash by done.
      by apply GenerateDestinationPath_range_missing.
    + left. exists rest.
      assert (stripped config image rest) as Hs by (by eapply stripped_registry).
      split; [done|]. by apply GenerateDestinationPath_stripped.
  - left. exists image. split; [by constructor|].
    by apply GenerateDestinationPath_bare.
Qed.

Lemma stripped_source_found config image rest :
  stripped config image rest → source_found config image.
Proof.
  intros [Hbare | before repo after rest' Hrepos _ Hrepo]; [by left|].
  right. rewrite Hrepos. apply Exists_split. by exists rest'.
Qed.

Lemma source_found_stripped config image :
  source_found config image → ∃ rest, stripped config image rest.
Proof.
  intros [Hbare | Hex]; [exists image; by constructor|].
  destruct (first_split (λ r, registry_prefix r image) _ (Repositories config)
              (λ r, HasPrefix_registry_prefix r image))
    as [Hnone | (before & repo & after & Hrepos & Hbefore & [rest Hrepo])].
  - destruct (Forall_not_Exists _ _ Hnone Hex).
  - exists rest. by eapply stripped_registry.
Qed.

End derivation_cases.

(** ** Properties of the destination derivation *)

(** C1.  The run of the derivation on a selector that starts with ["!"]
    and a source image that has a ["/"] but matches no repository of the
    configuration: the derivation ends with
    [RepositoryNotFoundForSourceError], although [GetDestination] on the
    same selector returns the literal destination whatever the
    repositories are. *)
Theorem literal_selector_unknown_source σ :
  GenerateDestinationPathFromSourcePathAndConfig σ
    "quay.io/team-a/application-x:123" "!registryC.com/mirror/application-x:123"
    readme_config
  = (EmptyString, Some (RepositoryNotFoundForSourceError "quay.io/team-a/application-x:123"))
  ∧ ∀ img config,
      GetDestination σ "!registryC.com/mirror/application-x:123" img config
      = ("registryC.com/mirror/application-x:123", None).
Proof.
  split; [reflexivity|]. intros img config. by rewrite GetDestination_literal.
Qed.

(** C2, as stated, fails: a source image without ["/"] is a prefix
    match of no repository, yet the derivation returns a destination and
    no error. *)
Lemma bare_image_no_source_error :
  Forall (λ r, ¬ registry_prefix r "application-x:123") (Repositories readme_config)
  ∧ GenerateDestinationPathFromSourcePathAndConfig ascending
      "application-x:123" "source" readme_config
    = ("registryA.com/team-a/application-x:123", None).
Proof.
  split; [|by vm_compute].
  repeat constructor; apply no_registry_prefix; reflexivity.
Qed.

(** C2 (amended).  The derivation returns only the two sentinel errors,
    each with an empty string.  It returns
    [RepositoryNotFoundForSourceError] exactly when the image contains a
    ["/"] and the registry path of no repository, followed by ["/"], is
    a prefix of the image.  It returns
    [RepositoryNotFoundForDestinationError] exactly when the selector
    does not start with ["!"], the source step passes (no ["/"] in the
    image, or some repository's prefix matches) and the selector equals
    no repository's name or additional name.  In every other case, that
    is exactly when the source step passes and the selector starts with
    ["!"] or equals the name or an additional name of some repository,
    it returns a destination and no error; for a selector made of ["!"]
    and a literal destination, that destination is the literal one. *)
Theorem GenerateDestinationPath_errors σ image destination config :
  let res := GenerateDestinationPathFromSourcePathAndConfig σ image destination config in
  (res = (EmptyString, Some (RepositoryNotFoundForSourceError image))
   ↔ occurs "/" image
     ∧ Forall (λ r, ¬ registry_prefix r image) (Repositories config))
  ∧ (res = (EmptyString, Some (RepositoryNotFoundForDestinationError destination))
     ↔ HasPrefix destination "!" = false
       ∧ source_found config image
       ∧ Forall (λ r, ¬ selects destination r) (Repositories config))
  ∧ (res.2 = None
     ↔ source_found config image
       ∧ (HasPrefix destination "!" = true
          ∨ Exists (selects destination) (Repositories config)))
  ∧ (res.2 = None
     ∨ res = (EmptyString, Some (RepositoryNotFoundForSourceError image))
     ∨ res = (EmptyString, Some (RepositoryNotFoundForDestinationError destination)))
  ∧ (∀ literal, destination = "!" +:+ literal → source_found config image →
       res = (literal, None)).
Proof.
  intros res. subst res.
  assert (∀ literal, destination = "!" +:+ literal → HasPrefix destination "!" = true)
    as Hliteral by (intros literal ->; apply HasPrefix_iff; eauto).
  destruct (GenerateDestinationPath_cases σ image destination config)
    as [(rest & Hstrip & ->) | (Hslash & Hnone & ->)].
  - pose proof (stripped_source_found _ _ _ Hstrip) as Hfound.
    assert (¬ (occurs "/" image
               ∧ Forall (λ r, ¬ registry_prefix r image) (Repositories config)))
      as Hnot.
    { intros [Hslash Hnone]. destruct Hfound as [?|Hex]; [done|].
      by destruct (Forall_not_Exists _ _ Hnone Hex). }
    destruct (GetDestination_cases σ destination rest config)
      as [Hbang | Hbang Hmiss | before repo after Hbang Hrepos Hbefore Hsel].
    + split; [split; [discriminate | by intros ?%Hnot]|].
      split; [split; [discriminate | intros (? & _); congruence]|].
      split; [split; [by auto | done]|].
      split; [by left|].
      by intros literal -> _.
    + split; [split; [discriminate | by intros ?%Hnot]|].
      split; [done|].
      split.
      { split; [discriminate|]. intros (_ & [?|Hex]); [congruence|].
        by destruct (Forall_not_Exists _ _ Hmiss Hex). }
      split; [by right; right|].
      intros literal Heq%Hliteral. congruence.
    + assert (Exists (selects destination) (Repositories config)) as Hex
        by (rewrite Hrepos; by apply Exists_split).
      split; [split; [discriminate | by intros ?%Hnot]|].
      split.
      { split; [discriminate|]. intros (_ & _ & Hmiss).
        by destruct (Forall_not_Exists _ _ Hmiss Hex). }
      split; [split; [by auto | done]|].
      split; [by left|].
      intros literal Heq%Hliteral. congruence.
  - assert (¬ source_found config image) as Hnot.
    { intros [?|Hex]; [done|]. by destruct (Forall_not_Exists _ _ Hnone Hex). }
    split; [done|].
    split; [split; [discriminate | by intros (_ & ?%Hnot & _)]|].
    split; [split; [discriminate | by intros (?%Hnot & _)]|].
    split; [by right; left|].
    by intros literal _ ?%Hnot.
Qed.

Lemma GenerateDestinationPath_errors_witness :
  GenerateDestinationPathFromSourcePathAndConfig ascending
    "quay.io/team-a/application-x:123" "teamB" readme_config
  = (EmptyString, Some (RepositoryNotFoundForSourceError "quay.io/team-a/application-x:123"))
  ∧ GenerateDestinationPathFromSourcePathAndConfig ascending
      "application-x:123" "!registryC.com/mirror/application-x:123" readme_config
    = ("registryC.com/mirror/application-x:123", None).
Proof.
  split.
  - apply (proj1 (GenerateDestinationPath_errors ascending
                    "quay.io/team-a/application-x:123" "teamB" readme_config)).
    split; [apply Contains_occurs; reflexivity|].
    repeat constructor; apply no_registry_prefix; reflexivity.
  - apply (proj2 (proj2 (proj2 (proj2
             (GenerateDestinationPath_errors ascending "application-x:123"
                "!registryC.com/mirror/application-x:123" readme_config))))
             "registryC.com/mirror/application-x:123");
      [reflexivity|].
    left. apply Contains_absent. reflexivity.
Defined.

(** C8.  For a source image without ["/"] the registry-prefix matching
    is skipped: the derivation is [GetDestination] on the unmodified
    image, and it never returns [RepositoryNotFoundForSourceError],
    whatever the configuration. *)
Theorem bare_image_skips_registry_matching σ image destination config :
  ¬ occurs "/" image →
  GenerateDestinationPathFromSourcePathAndConfig σ image destination config
  = GetDestination σ destination image config
  ∧ ∀ source,
      (GenerateDestinationPathFromSourcePathAndConfig σ image destination config).2
      ≠ Some (RepositoryNotFoundForSourceError source).
Proof.
  intros Hbare. rewrite GenerateDestinationPath_bare by done. split; [done|].
  intros source. by destruct (GetDestination_cases σ destination image config).
Qed.

Lemma bare_image_skips_registry_matching_witness :
  ¬ occurs "/" "application-x:123"
  ∧ GenerateDestinationPathFromSourcePathAndConfig ascending
      "application-x:123" "unknown" {| Repositories := []; GlobalDestinationMapping := ∅ |}
    = GetDestination ascending "unknown" "application-x:123"
        {| Repositories := []; GlobalDestinationMapping := ∅ |}.
Proof.
  assert (¬ occurs "/" "application-x:123") as Hbare
    by (apply Contains_absent; reflexivity).
  split; [exact Hbare|].
  exact (proj1 (bare_image_skips_registry_matching ascending "application-x:123"
                  "unknown" {| Repositories := []; GlobalDestinationMapping := ∅ |} Hbare)).
Defined.

(** C9.  When the registry path of [repo], followed by ["/"], is a
    prefix of the image and that of no earlier repository is, the
    derivation strips the prefix of [repo]: the repositories after it
    are not consulted, whether or not their prefix matches too. *)
Theorem earliest_registry_prefix_wins
    σ image destination config before repo after rest :
  Repositories config = before ++ repo :: after →
  Forall (λ r, ¬ registry_prefix r image) before →
  strips_to repo image rest →
  GenerateDestinationPathFromSourcePathAndConfig σ image destination config
  = GetDestination σ destination rest config
  ∧ ∀ after',
      GenerateDestinationPath_range σ image destination config (before ++ repo :: after')
      = GetDestination σ destination rest config.
Proof.
  intros Hrepos Hbefore Hrepo. split.
  - apply GenerateDestinationPath_stripped. by eapply stripped_registry.
  - intros after'. by apply GenerateDestinationPath_range_stripped.
Qed.

Lemma earliest_registry_prefix_wins_witness :
  Exists (λ r, strips_to r "registry.io/team/app:1" "app:1") (Repositories nested_config)
  ∧ GenerateDestinationPathFromSourcePathAndConfig ascending
      "registry.io/team/app:1" "t" nested_config
    = GetDestination ascending "t" "team/app:1" nested_config.
Proof.
  split.
  - apply Exists_cons_tl, Exists_cons_hd. reflexivity.
  - refine (proj1 (earliest_registry_prefix_wins ascending "registry.io/team/app:1" "t"
                     nested_config [] _ _ "team/app:1" _ _ _)).
    + reflexivity.
    + constructor.
    + reflexivity.
Defined.

Lemma ApplyDestinationMapping_substituted σ path (m : gmap string string) :
  fair σ → substituted m path (ApplyDestinationMapping σ path m).
Proof.
  intros Hσ. unfold ApplyDestinationMapping.
  destruct (ApplyDestinationMapping_range_result (σ m) path)
    as [Hnone | visited k v rest Hσm _ Hocc].
  - left. split; [|done]. intros k [v Hk]. apply (Hnone k v). by apply fair_elem_of.
  - right. destruct (Replace1_first path k v Hocc) as (pre & post & Hfirst & ->).
    exists k, v, pre, post. split; [|done].
    apply (fair_elem_of σ); [done|]. rewrite Hσm. set_solver.
Qed.

(** C4.  Let [rest] be the image path left once the source registry is
    stripped, and let the selector not start with ["!"].  If the name or
    an additional name of some repository equals the selector, then for
    the earliest such repository [repo] the derivation returns, with no
    error, the registry path of [repo] (its registry, joined with ["/"]
    and its suffix when the suffix is not empty) followed by ["/"] and
    [rest], with the destination mapping of [repo] applied to it: that
    string itself when no key of the mapping occurs in it, and otherwise
    that string with the first instance of one key of the mapping
    replaced by the value of that key. *)
Theorem GenerateDestinationPath_selected σ config image rest destination :
  fair σ →
  stripped config image rest →
  HasPrefix destination "!" = false →
  Exists (selects destination) (Repositories config) →
  ∃ before repo after p result,
    Repositories config = before ++ repo :: after
    ∧ Forall (λ r, ¬ selects destination r) before
    ∧ selects destination repo
    ∧ registry_path repo p
    ∧ GenerateDestinationPathFromSourcePathAndConfig σ image destination config
      = (result, None)
    ∧ substituted (DestinationMapping repo) (p +:+ "/" +:+ rest) result.
Proof.
  intros Hσ Hstrip Hbang Hex.
  rewrite (GenerateDestinationPath_stripped _ _ _ _ _ Hstrip).
  destruct (GetDestination_cases σ destination rest config)
    as [Hbang' | _ Hmiss | before repo after _ Hrepos Hbefore Hsel].
  - congruence.
  - destruct (Forall_not_Exists _ _ Hmiss Hex).
  - exists before, repo, after, (GetRegistryPath repo). eexists.
    repeat (split; [done|]). split; [apply GetRegistryPath_registry_path|].
    split; [reflexivity|]. by apply ApplyDestinationMapping_substituted.
Qed.

Lemma GenerateDestinationPath_selected_witness :
  fair ascending
  ∧ stripped readme_config "registryA.com/team-a/application-x:123" "application-x:123"
  ∧ HasPrefix "teamB" "!" = false
  ∧ Exists (selects "teamB") (Repositories readme_config)
  ∧ GenerateDestinationPathFromSourcePathAndConfig ascending
      "registryA.com/team-a/application-x:123" "teamB" readme_config
    = ("registryB.com/team-b/external/team-a/application-x:123", None)
  ∧ ∃ repo p,
      selects "teamB" repo ∧ registry_path repo p
      ∧ substituted (DestinationMapping repo) (p +:+ "/" +:+ "application-x:123")
          "registryB.com/team-b/external/team-a/application-x:123".
Proof.
  assert (fair ascending) as Hfair by (intros m; reflexivity).
  assert (stripped readme_config "registryA.com/team-a/application-x:123"
            "application-x:123") as Hstrip.
  { eapply (stripped_registry _ _ []); [reflexivity | constructor | reflexivity]. }
  assert (Exists (selects "teamB") (Repositories readme_config)) as Hex.
  { apply Exists_cons_tl, Exists_cons_hd. right. constructor. }
  split; [exact Hfair|]. split; [exact Hstrip|]. split; [reflexivity|].
  split; [exact Hex|].
  destruct (GenerateDestinationPath_selected ascending readme_config
              "registryA.com/team-a/application-x:123" "application-x:123" "teamB"
              Hfair Hstrip eq_refl Hex)
    as (before & repo & after & p & result & _ & _ & Hsel & Hp & Hres & Hsub).
  assert (result = "registryB.com/team-b/external/team-a/application-x:123") as ->.
  { vm_compute in Hres. by injection Hres as <-. }
  split; [exact Hres|]. exists repo, p.
  split; [exact Hsel|]. split; [exact Hp|exact Hsub].
Defined.

(** ** The order of the steps in [main] *)

Lemma OverrideTag_suffix tag image :
  ∃ stem, OverrideTag tag image = stem +:+ ":" +:+ tag.
Proof.
  unfold OverrideTag. destruct (negb _); [|by eexists].
  destruct (_ =? -1); by eexists.
Qed.

(** C6.  The destination image is computed in this order: the
    destination path is derived from the source image, the selector and
    the configuration (an error there is fatal); the global destination
    mapping is applied to the derived path; and only when an override
    tag is given, the tag override is applied to the result of the
    global mapping.  The global mapping is therefore never applied to
    the overridden tag: with an override tag the destination image ends
    with [":"] and that tag. *)
Theorem destinationImage_steps σr σg sourceImage destination overrideTag config :
  let derived :=
    GenerateDestinationPathFromSourcePathAndConfig σr sourceImage destination config in
  let mapped :=
    ApplyDestinationMapping σg derived.1 (GlobalDestinationMapping config) in
  let final := destinationImage σr σg sourceImage destination overrideTag config in
  (∀ e, derived.2 = Some e → final = Fatal e)
  ∧ (derived.2 = None → overrideTag = EmptyString → final = Resolved mapped)
  ∧ (derived.2 = None → overrideTag ≠ EmptyString →
     final = Resolved (OverrideTag overrideTag mapped)
     ∧ ∃ stem, final = Resolved (stem +:+ ":" +:+ overrideTag)).
Proof.
  intros derived mapped final. subst derived mapped final. unfold destinationImage.
  destruct (GenerateDestinationPathFromSourcePathAndConfig _ _ _ _) as [path err].
  simpl. split; [|split].
  - by intros e ->.
  - by intros -> ->.
  - intros -> Htag.
    destruct (String.eqb_spec overrideTag EmptyString) as [|_]; [done|]. simpl.
    split; [done|].
    destruct (OverrideTag_suffix overrideTag
                (ApplyDestinationMapping σg path (GlobalDestinationMapping config)))
      as [stem ->].
    by exists stem.
Qed.

Lemma destinationImage_steps_witness :
  "123" ≠ EmptyString
  ∧ destinationImage ascending ascending
      "registryA.com/team-a/application-x:123" "teamB" "123" retag_config
    = Resolved "registryB.com/team-b/external/team-a/application-x:123".
Proof.
  split; [discriminate|].
  refine (eq_trans
    (proj1 (proj2 (proj2 (destinationImage_steps ascending ascending
       "registryA.com/team-a/application-x:123" "teamB" "123" retag_config)) _ _)) _).
  - reflexivity.
  - discriminate.
  - vm_compute. reflexivity.
Defined.

(** ** Dependence on the iteration order of the maps *)


Section order_independence.
Implicit Types (σ : Schedule) (config : Config) (m : gmap string string).

Lemma ApplyDestinationMapping_no_key σ path m :
  fair σ → (∀ k, is_Some (m !! k) → ¬ occurs k path) →
  ApplyDestinationMapping σ path m = path.
Proof.
  intros Hσ Hnone. unfold ApplyDestinationMapping.
  destruct (ApplyDestinationMapping_range_result (σ m) path)
    as [_ | visited k v rest Hσm _ Hocc]; [done|].
  destruct (Hnone k); [|done]. exists v.
  apply (fair_elem_of σ); [done|]. rewrite Hσm. set_solver.
Qed.







Lemma unambiguous_singleton k v path :
  unambiguous ({[ k := v ]} : gmap string string) path.
Proof.
  intros k1 k2 [v1 [-> _]%lookup_singleton_Some] [v2 [-> _]%lookup_singleton_Some] _ _.
  done.
Qed.

Lemma unambiguous_empty path : unambiguous (∅ : gmap string string) path.
Proof. intros k1 k2 [v1 Hk1]. by rewrite lookup_empty in Hk1. Qed.

End order_independence.



(** A store does change the configuration: the property below is not one
    of every computation over the memory. *)
Example store_mapping_mutates :
  (Stateful.store_mapping Stateful.GlobalMapping "application-x" "y" readme_config).2
  ≠ readme_config.
Proof.
  intros Heq. apply (f_equal (λ c, GlobalDestinationMapping c !! "application-x")) in Heq.
  vm_compute in Heq. discriminate Heq.
Qed.

Section read_only.
Implicit Types (σ : Schedule) (config : Config).

Lemma run_ApplyDestinationMapping σ path ref config :
  Stateful.ApplyDestinationMapping σ path ref config
  = (ApplyDestinationMapping σ path (Stateful.deref ref config), config).
Proof. reflexivity. Qed.

Lemma run_GetDestination_range σ destination img before repos config :
  Repositories config = before ++ repos →
  Stateful.GetDestination_range σ destination img (length before) repos config
  = (GetDestination_range σ destination img repos, config).
Proof.
  revert before. induction repos as [|repo repos IH]; intros before Hrepos; [done|].
  assert (Stateful.deref (Stateful.RepositoryMapping (length before)) config
          = DestinationMapping repo) as Hderef.
  { simpl. by rewrite Hrepos, list_lookup_middle. }
  simpl. destruct (String.eqb (Name repo) destination).
  { unfold mbind, Stateful.M_bind. by rewrite run_ApplyDestinationMapping, Hderef. }
  destruct (additional_matches destination (AdditionalNames repo)).
  { unfold mbind, Stateful.M_bind. by rewrite run_ApplyDestinationMapping, Hderef. }
  rewrite <-(IH (before ++ [repo])); [by rewrite length_app, Nat.add_1_r|].
  by rewrite <-app_assoc.
Qed.

Lemma run_GetDestination σ destination img config :
  Stateful.GetDestination σ destination img config
  = (GetDestination σ destination img config, config).
Proof.
  unfold Stateful.GetDestination, GetDestination.
  destruct (HasPrefix destination "!"); [done|].
  apply (run_GetDestination_range σ destination img []). done.
Qed.

Lemma run_GenerateDestinationPath_range σ image destination repos config :
  Stateful.GenerateDestinationPath_range σ image destination repos config
  = (GenerateDestinationPath_range σ image destination config repos, config).
Proof.
  induction repos as [|repo repos IH]; simpl; [done|].
  destruct (CutPrefix image (GetRegistryPath repo +:+ "/")) as [rest [|]]; [|done].
  apply run_GetDestination.
Qed.

Lemma run_GenerateDestinationPath σ image destination config :
  Stateful.GenerateDestinationPathFromSourcePathAndConfig σ image destination config
  = (GenerateDestinationPathFromSourcePathAndConfig σ image destination config, config).
Proof.
  unfold Stateful.GenerateDestinationPathFromSourcePathAndConfig,
    GenerateDestinationPathFromSourcePathAndConfig.
  destruct (_ <? _)%nat; [apply run_GetDestination|].
  apply run_GenerateDestinationPath_range.
Qed.

Lemma run_destinationImage σr σg sourceImage destination overrideTag config :
  Stateful.destinationImage σr σg sourceImage destination overrideTag config
  = (destinationImage σr σg sourceImage destination overrideTag config, config).
Proof.
  unfold Stateful.destinationImage, destinationImage, mbind, Stateful.M_bind.
  rewrite run_GenerateDestinationPath.
  destruct (GenerateDestinationPathFromSourcePathAndConfig _ _ _ _) as [p [e|]]; [done|].
  rewrite run_ApplyDestinationMapping. simpl.
  by destruct (negb _).
Qed.

End read_only.

(** C7.  No operation of the derivation changes the configuration: run
    over the memory of the configuration,
    [GenerateDestinationPathFromSourcePathAndConfig], [GetDestination],
    [ApplyDestinationMapping] (on the global mapping or on that of any
    repository), [OverrideTag] and the whole computation of the
    destination image leave the repository list, every field of every
    repository and both kinds of destination mapping as they were, and
    return what the functions return on that configuration. *)
Theorem configuration_unchanged
    σr σg image destination overrideTag img path ref config :
  Stateful.GenerateDestinationPathFromSourcePathAndConfig σr image destination config
    = (GenerateDestinationPathFromSourcePathAndConfig σr image destination config, config)
  ∧ Stateful.GetDestination σr destination img config
    = (GetDestination σr destination img config, config)
  ∧ Stateful.ApplyDestinationMapping σr path ref config
    = (ApplyDestinationMapping σr path (Stateful.deref ref config), config)
  ∧ Stateful.OverrideTag overrideTag image config
    = (OverrideTag overrideTag image, config)
  ∧ Stateful.destinationImage σr σg image destination overrideTag config
    = (destinationImage σr σg image destination overrideTag config, config).
Proof.
  split; [apply run_GenerateDestinationPath|].
  split; [apply run_GetDestination|].
  split; [apply run_ApplyDestinationMapping|].
  split; [reflexivity|].
  apply run_destinationImage.
Qed.


(** ** Further properties of the derivation *)

Section further_derivation.
Implicit Types (σ : Schedule) (config : Config) (m : gmap string string).

Lemma Replace1_empty_key path v : Replace1 path EmptyString v = v +:+ path.
Proof.
  unfold Replace1. rewrite Index_prefix by (by destruct path). simpl.
  by rewrite append_nil_l.
Qed.

(** [OverrideTag] on an image that ends with a tag. *)
Lemma OverrideTag_tagged tag pre post :
  ¬ occurs ":" post → ¬ occurs "/" post →
  OverrideTag tag (pre +:+ ":" +:+ post) = pre +:+ ":" +:+ tag.
Proof.
  intros Hcolon Hslash. unfold OverrideTag.
  change (":" +:+ post) with (String ":" post).
  rewrite (LastIndex_last pre ":" post Hcolon), Nat2Z.id, slice_from_app, slice_to_app.
  destruct (Z.eqb_spec (Z.of_nat (String.length pre)) (-1)); [lia|]. cbn [negb].
  assert (Index (String ":" post) "/" = -1) as ->; [|done].
  apply Index_absent. by intros [?|?]%occurs_char_cons.
Qed.

(** The part of the result of [OverrideTag] before the new tag does not
    depend on the tag. *)
Lemma OverrideTag_stem image :
  ∃ stem, ∀ tag, OverrideTag tag image = stem +:+ ":" +:+ tag.
Proof.
  unfold OverrideTag. destruct (negb _); [|by eexists].
  destruct (_ =? -1); by eexists.
Qed.

Lemma append_list s t :
  list_ascii_of_string (s +:+ t) = list_ascii_of_string s ++ list_ascii_of_string t.
Proof. induction s as [|c s IH]; [done|]. rewrite append_cons. simpl. by rewrite IH. Qed.

Lemma append_inj_r s s' t : s +:+ t = s' +:+ t → s = s'.
Proof.
  intros Heq%(f_equal list_ascii_of_string). rewrite !append_list in Heq.
  apply app_inj_2 in Heq as [Heq _]; [|done].
  rewrite <-(string_of_list_ascii_of_string s), <-(string_of_list_ascii_of_string s').
  by rewrite Heq.
Qed.

End further_derivation.

(** X1.  Pushing an image back to the repository it comes from gives
    the image itself: when the registry path of [repo] is the earliest
    prefix match of the image, [repo] is also the earliest repository the
    selector names, and no key of the destination mapping of [repo]
    occurs in the image, the derived destination is the source image. *)
Theorem repush_to_source_repository
    σ config image destination before repo after rest :
  fair σ →
  Repositories config = before ++ repo :: after →
  Forall (λ r, ¬ registry_prefix r image) before →
  Forall (λ r, ¬ selects destination r) before →
  strips_to repo image rest →
  selects destination repo →
  HasPrefix destination "!" = false →
  (∀ k, is_Some (DestinationMapping repo !! k) → ¬ occurs k image) →
  GenerateDestinationPathFromSourcePathAndConfig σ image destination config
  = (image, None).
Proof.
  intros Hσ Hrepos Hprefix Hsel Hstrip Hrepo Hbang Hkeys.
  rewrite (GenerateDestinationPath_stripped σ image destination config rest)
    by (by eapply stripped_registry).
  unfold GetDestination. rewrite Hbang, Hrepos.
  rewrite GetDestination_range_selected by done.
  rewrite <-Hstrip. by rewrite ApplyDestinationMapping_no_key.
Qed.

Lemma repush_to_source_repository_witness :
  fair ascending
  ∧ strips_to {| Name := "source"; AdditionalNames := []; Registry := "registryA.com";
                 Suffix := "team-a"; DestinationMapping := ∅ |}
      "registryA.com/team-a/application-x:123" "application-x:123"
  ∧ GenerateDestinationPathFromSourcePathAndConfig ascending
      "registryA.com/team-a/application-x:123" "source" readme_config
    = ("registryA.com/team-a/application-x:123", None).
Proof.
  split; [intros m; reflexivity|]. split; [reflexivity|].
  refine (repush_to_source_repository ascending readme_config
            "registryA.com/team-a/application-x:123" "source" [] _ _
            "application-x:123" _ _ _ _ _ _ _ _).
  - intros m; reflexivity.
  - reflexivity.
  - constructor.
  - constructor.
  - reflexivity.
  - left; reflexivity.
  - reflexivity.
  - intros k [v Hk]. cbn in Hk. rewrite lookup_empty in Hk. discriminate Hk.
Defined.

(** X2.  Overriding the tag twice is overriding it with the second tag,
    provided the first tag contains neither [":"] nor ["/"]; in
    particular overriding twice with the same such tag changes nothing
    more. *)
Theorem OverrideTag_twice tag1 tag2 image :
  ¬ occurs ":" tag1 → ¬ occurs "/" tag1 →
  OverrideTag tag2 (OverrideTag tag1 image) = OverrideTag tag2 image.
Proof.
  intros Hcolon Hslash. destruct (OverrideTag_stem image) as [stem Hstem].
  rewrite (Hstem tag1), (Hstem tag2). by apply OverrideTag_tagged.
Qed.

Lemma OverrideTag_twice_witness :
  ¬ occurs ":" "rc1" ∧ ¬ occurs "/" "rc1"
  ∧ OverrideTag "25-02-2025" (OverrideTag "rc1" "localhost:5000/application-x")
    = OverrideTag "25-02-2025" "localhost:5000/application-x".
Proof.
  assert (¬ occurs ":" "rc1") as Hc by (apply Contains_absent; reflexivity).
  assert (¬ occurs "/" "rc1") as Hs by (apply Contains_absent; reflexivity).
  split; [exact Hc|]. split; [exact Hs|].
  exact (OverrideTag_twice "rc1" "25-02-2025" "localhost:5000/application-x" Hc Hs).
Defined.

(** X3.  A mapping whose key is the empty string matches every path:
    when no other key of the map occurs in the path, the replacement of
    the empty key is put in front of the path. *)
Theorem ApplyDestinationMapping_empty_key σ path (m : gmap string string) v :
  fair σ →
  m !! EmptyString = Some v →
  (∀ k, k ≠ EmptyString → is_Some (m !! k) → ¬ occurs k path) →
  ApplyDestinationMapping σ path m = v +:+ path.
Proof.
  intros Hσ Hv Hothers.
  rewrite (ApplyDestinationMapping_unambiguous σ path m EmptyString v); try done.
  - apply Replace1_empty_key.
  - intros k1 k2 Hk1 Hk2 Ho1 Ho2.
    destruct (decide (k1 = EmptyString)) as [->|Hne1];
      [|by destruct (Hothers k1 Hne1 Hk1)].
    destruct (decide (k2 = EmptyString)) as [->|Hne2]; [done|].
    by destruct (Hothers k2 Hne2 Hk2).
  - by exists EmptyString, path.
Qed.

Lemma ApplyDestinationMapping_empty_key_witness :
  fair ascending
  ∧ ApplyDestinationMapping ascending "registryB.com/team-b/application-x:123"
      {[ EmptyString := "mirror." ]}
    = "mirror.registryB.com/team-b/application-x:123".
Proof.
  split; [intros m; reflexivity|].
  refine (ApplyDestinationMapping_empty_key ascending
            "registryB.com/team-b/application-x:123" {[ EmptyString := "mirror." ]}
            "mirror." _ _ _).
  - intros m; reflexivity.
  - apply lookup_singleton_eq.
  - intros k Hne [v' Hk]. apply lookup_singleton_Some in Hk as [Hk _]. congruence.
Defined.

(** X4.  A destination given literally after ["!"] is still rewritten by
    the rest of the pipeline: when the source step passes, the final
    destination image is the literal destination with the global
    destination mapping applied and then, when an override tag is given,
    with its tag overridden. *)
Theorem literal_destination_still_mapped
    σr σg sourceImage literal overrideTag config :
  source_found config sourceImage →
  destinationImage σr σg sourceImage ("!" +:+ literal) overrideTag config
  = Resolved
      (if String.eqb overrideTag EmptyString
       then ApplyDestinationMapping σg literal (GlobalDestinationMapping config)
       else OverrideTag overrideTag
              (ApplyDestinationMapping σg literal (GlobalDestinationMapping config))).
Proof.
  intros [rest Hstrip]%source_found_stripped. unfold destinationImage.
  rewrite (GenerateDestinationPath_stripped _ _ _ _ _ Hstrip).
  rewrite GetDestination_literal by (apply HasPrefix_iff; by exists literal).
  change (slice_from 1 ("!" +:+ literal)) with literal.
  by destruct (String.eqb overrideTag EmptyString).
Qed.

Lemma literal_destination_still_mapped_witness :
  source_found retag_config "application-x:123"
  ∧ destinationImage ascending ascending "application-x:123"
      "!registryC.com/mirror/application-x:123" EmptyString retag_config
    = Resolved "registryC.com/mirror/application-x:stable".
Proof.
  assert (source_found retag_config "application-x:123") as Hfound.
  { left. apply Contains_absent. reflexivity. }
  split; [exact Hfound|].
  exact (literal_destination_still_mapped ascending ascending "application-x:123"
           "registryC.com/mirror/application-x:123" EmptyString retag_config Hfound).
Defined.

(** X5.  The message of an error tells which error it is and for which
    image or selector: two errors with the same message are equal. *)
Theorem Error_injective e1 e2 : Main.Error e1 = Main.Error e2 → e1 = e2.
Proof.
  assert (∀ d s, d +:+ " destination" ≠ s +:+ " source image") as Hdiff.
  { intros d s Heq%(f_equal list_ascii_of_string). rewrite !append_list in Heq.
    apply (f_equal last) in Heq.
    change (list_ascii_of_string " destination")
      with (list_ascii_of_string " destinatio" ++ ["n"%char]) in Heq.
    change (list_ascii_of_string " source image")
      with (list_ascii_of_string " source imag" ++ ["e"%char]) in Heq.
    rewrite !(assoc_L (++)), !last_snoc in Heq. discriminate Heq. }
  destruct e1 as [d1|s1], e2 as [d2|s2]; simpl; intros Heq;
    apply (inj (String.app _)) in Heq.
  - by apply append_inj_r in Heq as ->.
  - by apply Hdiff in Heq.
  - symmetry in Heq. by apply Hdiff in Heq.
  - by apply append_inj_r in Heq as ->.
Qed.


Lemma Error_injective_witness :
  Main.Error (RepositoryNotFoundForDestinationError ("team" +:+ "C"))
  = Main.Error (RepositoryNotFoundForDestinationError "teamC")
  ∧ RepositoryNotFoundForDestinationError ("team" +:+ "C")
    = RepositoryNotFoundForDestinationError "teamC".
Proof.
  split; [reflexivity|].
  exact (Error_injective (RepositoryNotFoundForDestinationError ("team" +:+ "C"))
           (RepositoryNotFoundForDestinationError "teamC") eq_refl).
Defined.

(** ** Properties of [main] *)

Example readme_main_run :
  Main.main cid_Dir cid_Unmarshal ascii_TrimSpace ascii_ToLower
    (cid_world ("Y " +:+ String (ascii_of_nat 10) EmptyString)) (readme_flags false)
  = ([Main.os_Executable;
      Main.os_ReadFile "/opt/cid/config.json";
      Main.fmt_Print
        (Main.prompt "registryB.com/team-b/external/team-a/application-x:25-02-2025");
      Main.bufio_ReadString;
      Main.log_Println "Pulling image...";
      Main.exec_CombinedOutput
        ["docker"; "pull"; "registryA.com/team-a/application-x:123"];
      Main.log_Println EmptyString;
      Main.log_Println "Tagging image...";
      Main.exec_CombinedOutput
        ["docker"; "tag"; "registryA.com/team-a/application-x:123";
         "registryB.com/team-b/external/team-a/application-x:25-02-2025"];
      Main.log_Println EmptyString;
      Main.log_Println "Pushing image...";
      Main.exec_CombinedOutput
        ["docker"; "push";
         "registryB.com/team-b/external/team-a/application-x:25-02-2025"];
      Main.log_Println EmptyString],
     Main.Done tt).
Proof. vm_compute. reflexivity. Qed.

Section main_facts.
Variable Dir : string → string.
Variable Unmarshal : string → Config * option string.
Variables TrimSpace ToLower : string → string.
Variable w : Main.World.
Variable flags : Main.Flags.

#[local] Abbreviation run := (Main.main Dir Unmarshal TrimSpace ToLower w flags).
#[local] Abbreviation load := (Main.LoadConfig Dir Unmarshal w).
#[local] Abbreviation derive config :=
  (destinationImage (Main.range_repository w) (Main.range_global w)
     (Main.sourceImage flags) (Main.destination flags) (Main.overrideTag flags) config).
#[local] Abbreviation pull := [Main.containerTool flags; "pull"; Main.sourceImage flags].
#[local] Abbreviation tag d := [Main.containerTool flags; "tag"; Main.sourceImage flags; d].
#[local] Abbreviation push d := [Main.containerTool flags; "push"; d].

Ltac unfold_run :=
  unfold Main.main, Main.LoadConfig, Main.PullImage, Main.TagImage, Main.PushImage,
    Main.fatal_on, Main.call, Main.log_Fatal, mbind, mret, Main.IO_bind, Main.IO_ret
    in *.

Ltac split_run :=
  repeat match goal with
  | |- context [String.eqb ?a ?b] => destruct (String.eqb_spec a b)
  | |- context [Main.executable w] => destruct (Main.executable w) as [? [?|]] eqn:?
  | |- context [Main.file w ?n] => destruct (Main.file w n) as [? [?|]] eqn:?
  | |- context [Unmarshal ?b] => destruct (Unmarshal b) as [? [?|]] eqn:?
  | |- context [destinationImage ?a ?b ?c ?d ?e ?f] =>
      destruct (destinationImage a b c d e f) eqn:?
  | |- context [Main.force flags] => destruct (Main.force flags) eqn:?
  | |- context [Main.output w ?argv] => destruct (Main.output w argv) as [? [?|]] eqn:?
  end.

(** X6.  When a required flag is empty, [main] ends at once, before any
    call to its environment (the configuration is not even looked for),
    with the message of the first missing flag in the order image,
    container tool, destination. *)
Theorem main_missing_flag :
  (Main.sourceImage flags = EmptyString →
     Main.main Dir Unmarshal TrimSpace ToLower w flags
     = ([], Main.Exit "Must specify -image"))
  ∧ (Main.sourceImage flags ≠ EmptyString →
     Main.containerTool flags = EmptyString →
     Main.main Dir Unmarshal TrimSpace ToLower w flags
     = ([], Main.Exit "Must specify -container-tool"))
  ∧ (Main.sourceImage flags ≠ EmptyString →
     Main.containerTool flags ≠ EmptyString →
     Main.destination flags = EmptyString →
     Main.main Dir Unmarshal TrimSpace ToLower w flags
     = ([], Main.Exit "Must specify -destination")).
Proof.
  unfold Main.main.
  destruct (String.eqb_spec (Main.sourceImage flags) EmptyString);
    destruct (String.eqb_spec (Main.containerTool flags) EmptyString);
    destruct (String.eqb_spec (Main.destination flags) EmptyString);
    repeat split; intros; done.
Qed.

(** X7.  [LoadConfig] never ends the process itself and runs no
    command.  With an error it returns the empty configuration, never a
    partly decoded one.  The only file it reads is [config.json] in the
    directory of the executable, and it reads no file when the path of
    the executable is not known. *)
Theorem LoadConfig_result :
  ∃ config err,
    load.2 = Main.Done (config, err)
    ∧ (err ≠ None → config = Main.zero_Config)
    ∧ Main.commands load.1 = []
    ∧ ∀ name, Main.os_ReadFile name ∈ load.1 →
        (Main.executable w).2 = None
        ∧ name = Dir (Main.executable w).1 +:+ "/config.json".
Proof.
  unfold_run. split_run; cbn; eexists _, _; (split; [reflexivity|]);
    (split; [done|]); (split; [done|]); intros name Hin;
    repeat (apply elem_of_cons in Hin as [Hin|Hin]; [by simplify_eq|]);
    by apply elem_of_nil in Hin.
Qed.

(** X8.  When the configuration cannot be loaded, or the destination
    cannot be derived, [main] ends with the message of that error right
    after the attempt to load the configuration: nothing is printed,
    read or run. *)
Theorem main_stops_on_error :
  Main.sourceImage flags ≠ EmptyString →
  Main.containerTool flags ≠ EmptyString →
  Main.destination flags ≠ EmptyString →
  (∀ config e, load.2 = Main.Done (config, Some e) → run = (load.1, Main.Exit e))
  ∧ (∀ config e, load.2 = Main.Done (config, None) → derive config = Fatal e →
       run = (load.1, Main.Exit (Main.Error e))).
Proof.
  intros Hi Ht Hd. unfold Main.main.
  destruct (String.eqb_spec (Main.sourceImage flags) EmptyString); [done|].
  destruct (String.eqb_spec (Main.containerTool flags) EmptyString); [done|].
  destruct (String.eqb_spec (Main.destination flags) EmptyString); [done|].
  destruct load as [calls [[config' err]|msg]] eqn:Hload; cbn.
  - split.
    + intros config e [= -> ->]. cbn. by rewrite app_nil_r.
    + intros config e [= -> ->] Hderive. cbn. rewrite Hderive. cbn.
      by rewrite !app_nil_r.
  - split; intros; discriminate.
Qed.

(** X9.  The commands [main] runs are an initial part of: pull the
    source image, tag the source image as the destination image, push
    the destination image, all with the container tool of the flags.
    The destination image is the one derived from the loaded
    configuration; the tag command is run only after the pull returned
    no error, and the push only after the tag returned no error. *)
Theorem main_command_sequence :
  ∃ n config d,
    Main.commands run.1 = take n [pull; tag d; push d]
    ∧ (n ≠ 0%nat → load.2 = Main.Done (config, None) ∧ derive config = Resolved d)
    ∧ ((2 ≤ n)%nat → (Main.output w pull).2 = None)
    ∧ ((3 ≤ n)%nat → (Main.output w (tag d)).2 = None).
Proof.
  unfold_run. split_run; cbn;
    try (exists 0%nat, Main.zero_Config, EmptyString; split; [reflexivity|];
         split; [done|]; split; lia).
  all: match goal with
       | H : Main.output w [_; "pull"; _] = (_, Some _) |- _ =>
           eexists 1%nat, _, _; split; [reflexivity|]; split; [done|]; split; lia
       | H : Main.output w [_; "tag"; _; _] = (_, Some _) |- _ =>
           eexists 2%nat, _, _; split; [reflexivity|]; split; [done|]; split; [done|lia]
       | _ =>
           eexists 3%nat, _, _; split; [reflexivity|]; split; [done|];
           split; intros _; simplify_eq/=; by repeat match goal with H : _ = _ |- _ => rewrite H end
       end.
Qed.

Ltac absent_call :=
  let Hin := fresh "Hin" in
  intros Hin;
  repeat (apply elem_of_cons in Hin as [Hin|Hin]; [discriminate Hin|]);
  by apply elem_of_nil in Hin.

(** X10.  Without [-force], when the answer read at the prompt, with
    surrounding white space removed and in lower case, is not ["y"],
    [main] runs no command and ends in [log.Fatal]. *)
Theorem main_needs_consent :
  Main.force flags = false →
  ToLower (TrimSpace (Main.input w)) ≠ "y" →
  Main.commands run.1 = [] ∧ ∃ msg, run.2 = Main.Exit msg.
Proof.
  intros Hforce Hanswer. unfold_run. rewrite Hforce.
  split_run; cbn; try done; by eauto.
Qed.

(** X11.  With [-force], [main] prints no prompt and reads nothing from
    standard input, and its calls and its end are the same whatever
    standard input holds. *)
Theorem main_force_ignores_input :
  Main.force flags = true →
  (∀ text,
     Main.main Dir Unmarshal TrimSpace ToLower (Main.with_input text w) flags = run)
  ∧ (Main.bufio_ReadString ∉ run.1)
  ∧ (∀ text, Main.fmt_Print text ∉ run.1).
Proof.
  intros Hforce. unfold_run. unfold Main.with_input. cbn. rewrite Hforce.
  split_run; cbn; (split; [done|]); (split; [|intros text]); absent_call.
Qed.

(** X12.  Without [-force], an image is tagged or pushed only after the
    prompt showing exactly that image was printed and the answer read,
    and no command is run before that prompt. *)
Theorem main_prompt_shows_destination d :
  Main.force flags = false →
  tag d ∈ Main.commands run.1 ∨ push d ∈ Main.commands run.1 →
  ∃ before after,
    run.1 = before ++ Main.fmt_Print (Main.prompt d) :: Main.bufio_ReadString :: after
    ∧ Main.commands before = [].
Proof.
  intros Hforce. unfold_run. rewrite Hforce.
  split_run; cbn; intros [Hin|Hin];
    repeat (apply elem_of_cons in Hin as [Hin|Hin]; [simplify_eq|]);
    try (by apply elem_of_nil in Hin);
    by eexists [_; _], _.
Qed.

(** X13.  [main] returns normally exactly when it has run the three
    commands pull, tag and push, in this order, and the push returned no
    error. *)
Theorem main_returns :
  run.2 = Main.Done tt
  ↔ ∃ d, Main.commands run.1 = [pull; tag d; push d]
         ∧ (Main.output w (push d)).2 = None.
Proof.
  unfold_run. split_run; cbn; split;
    try discriminate;
    try (intros (d & Hcommands & Hpush); simplify_eq/=;
         by repeat match goal with
                   | H : Main.output w _ = _ |- _ => rewrite H in *; clear H
                   end).
  all: intros _; eexists; split; [reflexivity|];
    by repeat match goal with H : Main.output w _ = _ |- _ => rewrite H; clear H end.
Qed.

End main_facts.

Lemma main_missing_flag_witness :
  Main.sourceImage
    {| Main.containerTool := "docker"; Main.sourceImage := EmptyString;
       Main.destination := "teamB"; Main.overrideTag := EmptyString;
       Main.force := true |} = EmptyString
  ∧ Main.main cid_Dir cid_Unmarshal ascii_TrimSpace ascii_ToLower (cid_world EmptyString)
      {| Main.containerTool := "docker"; Main.sourceImage := EmptyString;
         Main.destination := "teamB"; Main.overrideTag := EmptyString;
         Main.force := true |}
    = ([], Main.Exit "Must specify -image").
Proof.
  split; [reflexivity|].
  apply (proj1 (main_missing_flag cid_Dir cid_Unmarshal ascii_TrimSpace ascii_ToLower
                  (cid_world EmptyString)
                  {| Main.containerTool := "docker"; Main.sourceImage := EmptyString;
                     Main.destination := "teamB"; Main.overrideTag := EmptyString;
                     Main.force := true |})).
  reflexivity.
Defined.

Lemma main_stops_on_error_witness :
  Main.main cid_Dir cid_Unmarshal ascii_TrimSpace ascii_ToLower (cid_world EmptyString)
    {| Main.containerTool := "docker";
       Main.sourceImage := "quay.io/team-a/application-x:123";
       Main.destination := "teamB"; Main.overrideTag := EmptyString;
       Main.force := true |}
  = ([Main.os_Executable; Main.os_ReadFile "/opt/cid/config.json"],
     Main.Exit
       "Could not find repository matching quay.io/team-a/application-x:123 source image").
Proof.
  refine (proj2 (main_stops_on_error cid_Dir cid_Unmarshal ascii_TrimSpace ascii_ToLower
                   (cid_world EmptyString)
                   {| Main.containerTool := "docker";
                      Main.sourceImage := "quay.io/team-a/application-x:123";
                      Main.destination := "teamB"; Main.overrideTag := EmptyString;
                      Main.force := true |} _ _ _)
            readme_config
            (RepositoryNotFoundForSourceError "quay.io/team-a/application-x:123") _ _);
    try discriminate; vm_compute; reflexivity.
Defined.

Lemma main_needs_consent_witness :
  ascii_ToLower (ascii_TrimSpace (typed "n")) ≠ "y"
  ∧ Main.commands
      (Main.main cid_Dir cid_Unmarshal ascii_TrimSpace ascii_ToLower
         (cid_world (typed "n")) (readme_flags false)).1 = [].
Proof.
  assert (ascii_ToLower (ascii_TrimSpace (typed "n")) ≠ "y") as Hno
    by (vm_compute; discriminate).
  split; [exact Hno|].
  exact (proj1 (main_needs_consent cid_Dir cid_Unmarshal ascii_TrimSpace ascii_ToLower
                  (cid_world (typed "n")) (readme_flags false) eq_refl Hno)).
Defined.

Lemma main_force_ignores_input_witness :
  Main.force (readme_flags true) = true
  ∧ ∀ text,
      Main.main cid_Dir cid_Unmarshal ascii_TrimSpace ascii_ToLower
        (Main.with_input text (cid_world EmptyString)) (readme_flags true)
      = Main.main cid_Dir cid_Unmarshal ascii_TrimSpace ascii_ToLower
          (cid_world EmptyString) (readme_flags true).
Proof.
  split; [reflexivity|].
  exact (proj1 (main_force_ignores_input cid_Dir cid_Unmarshal ascii_TrimSpace
                  ascii_ToLower (cid_world EmptyString) (readme_flags true) eq_refl)).
Defined.

Lemma main_prompt_shows_destination_witness :
  ["docker"; "push"; "registryB.com/team-b/external/team-a/application-x:25-02-2025"]
    ∈ Main.commands
        (Main.main cid_Dir cid_Unmarshal ascii_TrimSpace ascii_ToLower
           (cid_world (typed "y")) (readme_flags false)).1
  ∧ ∃ before after,
      (Main.main cid_Dir cid_Unmarshal ascii_TrimSpace ascii_ToLower
         (cid_world (typed "y")) (readme_flags false)).1
      = before
        ++ Main.fmt_Print
             (Main.prompt "registryB.com/team-b/external/team-a/application-x:25-02-2025")
           :: Main.bufio_ReadString :: after
      ∧ Main.commands before = [].
Proof.
  assert (["docker"; "push";
           "registryB.com/team-b/external/team-a/application-x:25-02-2025"]
            ∈ Main.commands
                (Main.main cid_Dir cid_Unmarshal ascii_TrimSpace ascii_ToLower
                   (cid_world (typed "y")) (readme_flags false)).1) as Hin.
  { vm_compute. repeat constructor. }
  split; [exact Hin|].
  exact (main_prompt_shows_destination cid_Dir cid_Unmarshal ascii_TrimSpace ascii_ToLower
           (cid_world (typed "y")) (readme_flags false)
           "registryB.com/team-b/external/team-a/application-x:25-02-2025"
           eq_refl (or_intror Hin)).
Defined.
